(** * micro-gravity: discovery, ordering and activation of TitanPL extensions

    A shallow embedding of [src/index.ts].  The file follows the source
    top-down: the JavaScript object store the loader writes into, the
    type-alias table, extension discovery over a directory tree, the
    dependency sort, and the activation of one extension. *)

From Stdlib Require Import String Ascii List Arith Lia Relations.
From stdpp Require Import base option list gmap sets strings pretty sorting.

Local Open Scope string_scope.
Local Set Warnings "-register-all".

(* ===================================================================== *)
(** ** JavaScript objects

    The loader keeps its state in plain JavaScript objects ([TYPE_MAP], the
    namespace [t], one bag per extension).  Property reads and writes on
    such objects go through the prototype chain, so the store is modelled
    with it: ordinary objects with writable data properties, a prototype
    link, and the one accessor every plain object inherits,
    [Object.prototype.__proto__]. *)

Module Js.

Definition loc := nat.

Inductive Val :=
| VUndef
| VStr (s : string)
| VRef (l : loc).

#[global] Instance Val_eq_dec : EqDecision Val.
Proof. solve_decision. Defined.

(** ToBoolean on the values of the model: [undefined] and the empty string
    are falsy, every object is truthy. *)
Definition truthy (v : Val) : bool :=
  match v with
  | VUndef => false
  | VStr s => negb (String.eqb s "")
  | VRef _ => true
  end.

(** [a || b] *)
Definition or_else (a b : Val) : Val := if truthy a then a else b.

Record Obj := mkObj { props : gmap string Val; proto : option loc }.

Abbreviation Heap := (gmap loc Obj).

(** Fixed objects of the realm. *)
Definition objProto : loc := 0.
Definition v8_serialize : loc := 1.
Definition v8_deserialize : loc := 2.

(** The data properties of [Object.prototype] ([__proto__] is an accessor
    and is handled by [get] and [set]). *)
Definition objectPrototypeKeys : list string :=
  [ "constructor"; "__defineGetter__"; "__defineSetter__"; "hasOwnProperty";
    "__lookupGetter__"; "__lookupSetter__"; "isPrototypeOf";
    "propertyIsEnumerable"; "toString"; "valueOf"; "toLocaleString" ].

(** Walk of the prototype chain looking for a data property. *)
Fixpoint lookupChain (fuel : nat) (h : Heap) (l : loc) (k : string)
  : option Val :=
  match fuel with
  | O => None
  | S n =>
      match h !! l with
      | None => None
      | Some o =>
          match props o !! k with
          | Some v => Some v
          | None =>
              match proto o with
              | Some p => lookupChain n h p k
              | None => None
              end
          end
      end
  end.

(** Does the chain of [l] pass through [target]? *)
Fixpoint reaches (fuel : nat) (h : Heap) (l target : loc) : bool :=
  match fuel with
  | O => false
  | S n =>
      if decide (l = target) then true
      else match h !! l with
           | Some o =>
               match proto o with
               | Some p => reaches n h p target
               | None => false
               end
           | None => false
           end
  end.

Definition chainFuel (h : Heap) : nat := S (size h).

Definition protoVal (h : Heap) (l : loc) : Val :=
  match h !! l with
  | Some o => match proto o with Some p => VRef p | None => VUndef end
  | None => VUndef
  end.

(** [o[k]] for an object reference. *)
Definition get (h : Heap) (l : loc) (k : string) : Val :=
  match lookupChain (chainFuel h) h l k with
  | Some v => v
  | None =>
      if decide (k = "__proto__") then
        if reaches (chainFuel h) h l objProto then protoVal h l else VUndef
      else VUndef
  end.

Definition setOwn (h : Heap) (l : loc) (k : string) (v : Val) : Heap :=
  match h !! l with
  | Some o => <[l := mkObj (<[k := v]> (props o)) (proto o)]> h
  | None => h
  end.

(** The setter of [Object.prototype.__proto__]: values that are not objects
    are ignored, [Object.prototype] itself has an immutable prototype, and a
    cyclic chain is refused.  [None] is a thrown TypeError. *)
Definition setProto (h : Heap) (l : loc) (v : Val) : option Heap :=
  match v with
  | VRef p =>
      match h !! l with
      | Some o =>
          if decide (proto o = Some p) then Some h
          else if decide (l = objProto) then None
          else if reaches (chainFuel h) h p l then None
          else Some (<[l := mkObj (props o) (Some p)]> h)
      | None => None
      end
  | _ => Some h
  end.

(** [o[k] = v] on an object reference (strict mode). *)
Definition set (h : Heap) (l : loc) (k : string) (v : Val) : option Heap :=
  match lookupChain (chainFuel h) h l k with
  | Some _ => Some (setOwn h l k v)
  | None =>
      if decide (k = "__proto__") then
        if reaches (chainFuel h) h l objProto then setProto h l v
        else Some (setOwn h l k v)
      else Some (setOwn h l k v)
  end.

(** [x[k] = v] where [x] is any value: writing a property of a primitive
    throws in strict mode. *)
Definition setV (h : Heap) (x : Val) (k : string) (v : Val) : option Heap :=
  match x with
  | VRef l => set h l k v
  | _ => None
  end.

(** [k in o] *)
Definition hasProperty (h : Heap) (l : loc) (k : string) : bool :=
  match lookupChain (chainFuel h) h l k with
  | Some _ => true
  | None =>
      if decide (k = "__proto__") then reaches (chainFuel h) h l objProto
      else false
  end.

(** Own data property, without the chain. *)
Definition own (h : Heap) (l : loc) (k : string) : option Val :=
  match h !! l with
  | Some o => props o !! k
  | None => None
  end.

(** A fresh plain object: [{}] or an object literal. *)
Definition alloc (h : Heap) (ps : list (string * Val)) : loc * Heap :=
  let l := fresh (dom h) in
  (l, <[l := mkObj (list_to_map ps) (Some objProto)]> h).

(** The realm before the module runs: [Object.prototype] with its built-in
    functions, and the two functions of [node:v8] the loader uses. *)
Definition builtinLoc (i : nat) : loc := 3 + i.

Definition builtinProps : list (string * Val) :=
  imap (fun i k => (k, VRef (builtinLoc i))) objectPrototypeKeys.

(** A function, as far as the loader's writes to its own bags need it: an
    object with no own property, directly below [Object.prototype].  The own
    [name] and [length] of a real function, which cannot be written, and
    [Function.prototype] are not modelled: theorems that assert that a
    declared function is written into a bag are stated for the bags the
    loader creates itself, which are plain objects; the keys of the hooks,
    [serialize] and [deserialize], can be written on a function too. *)
Definition functionObj : Obj := mkObj ∅ (Some objProto).

Definition realm : Heap :=
  list_to_map
    ((objProto, mkObj (list_to_map builtinProps) None)
     :: (v8_serialize, functionObj)
     :: (v8_deserialize, functionObj)
     :: imap (fun i _ => (builtinLoc i, functionObj)) objectPrototypeKeys).

End Js.

(* ===================================================================== *)
(** ** TYPE MAPPING *)

(** [const TYPE_MAP = { 'string': 'str', 'f64': 'double', ... }], an object
    literal evaluated once when the module is loaded. *)
Definition TYPE_MAP_entries : list (string * Js.Val) :=
  [ ("string", Js.VStr "str");
    ("f64", Js.VStr "double");
    ("bool", Js.VStr "bool");
    ("void", Js.VStr "void") ].

Definition TYPE_MAP : Js.loc := fst (Js.alloc Js.realm TYPE_MAP_entries).

Definition moduleHeap : Js.Heap := snd (Js.alloc Js.realm TYPE_MAP_entries).

(** [TYPE_MAP[p] || p] *)
Definition translateType (h : Js.Heap) (p : string) : Js.Val :=
  Js.or_else (Js.get h TYPE_MAP p) (Js.VStr p).

(* ===================================================================== *)
(** ** TYPES *)

(** A manifest is the unchecked output of [JSON.parse]: [parameters] is
    [None] when a declaration has no array there, so that
    [def.parameters.map] throws. *)
Record NativeFunctionDef := mkNativeFunctionDef {
  symbol : string;
  parameters : option (list string);
  result : string
}.

(** [functions] and [v8_functions] are JSON objects used as records: they are
    kept as what [Object.entries] and the [in] operator see of them, the
    entries in enumeration order and the keys. *)
Record Native := mkNative {
  native_path : string;
  functions : option (list (string * NativeFunctionDef));
  v8_functions : option (list string)
}.

Record TitanJson := mkTitanJson {
  tj_name : string;
  main : option string;
  native : option Native
}.

Record TitanExtension := mkTitanExtension {
  name : string;
  path : string;
  titanJson : TitanJson;
  isLocal : bool
}.

(* ===================================================================== *)
(** ** The file system seen by discovery *)

(** What [JSON.parse(fs.readFileSync(p, 'utf8'))] gives for a file. *)
Inductive Manifest :=
| Unparseable                 (* the read or the parse throws *)
| JNull                       (* the JSON text [null]: reading [.name] throws *)
| JNoName                     (* any other value whose [.name] is undefined *)
| JManifest (tj : TitanJson). (* an object with a string [name] *)

Inductive Node :=
| File (content : Manifest)
| Dir (readable : bool) (children : list (string * Node))
| Broken.                     (* listed by readdir, but stat fails *)

(** [path.join(dir, entry)] where [entry] is a plain name ([titan.json],
    [node_modules], [package.json], a name listed by [readdir]): the name is
    appended.  This is how discovery and the sort build their paths; for a
    [dir] that is not in normal form ([.], a trailing slash) the code's path
    is the normal form of this one.  The paths activation builds from the
    strings of a manifest go through [pathJoin] below. *)
Definition join (dir entry : string) : string :=
  if String.eqb entry "" then dir else dir ++ "/" ++ entry.

(** *** [path.join] on arbitrary arguments (POSIX) *)

(** The segments of a path between its slashes. *)
Fixpoint splitSlash (s : string) : list string :=
  match s with
  | "" => [""]
  | String c rest =>
      if Ascii.eqb c "/" then "" :: splitSlash rest
      else match splitSlash rest with
           | seg :: segs => String c seg :: segs
           | [] => [String c ""]
           end
  end.

(** One step of [normalizeString]; [stack] holds the segments kept so far,
    the last one first. *)
Definition pushSegment (allowAboveRoot : bool) (stack : list string)
    (seg : string) : list string :=
  if String.eqb seg "" || String.eqb seg "." then stack
  else if String.eqb seg ".." then
    match stack with
    | top :: rest =>
        if String.eqb top ".." then
          if allowAboveRoot then ".." :: stack else stack
        else rest
    | [] => if allowAboveRoot then [".."] else []
    end
  else seg :: stack.

Definition endsWithSlash (s : string) : bool :=
  match rev (list_ascii_of_string s) with
  | c :: _ => Ascii.eqb c "/"
  | [] => false
  end.

(** [path.normalize] *)
Definition normalize (p : string) : string :=
  if String.eqb p "" then "."
  else
    let isAbs := String.prefix "/" p in
    let trailing := endsWithSlash p in
    let body :=
      String.concat "/"
        (rev (fold_left (pushSegment (negb isAbs)) (splitSlash p) [])) in
    if String.eqb body "" then
      if isAbs then "/" else if trailing then "./" else "."
    else
      (if isAbs then "/" else "") ++ body ++ (if trailing then "/" else "").

(** [path.join(a, b)]: the non-empty arguments, joined by a slash and
    normalised. *)
Definition pathJoin (a b : string) : string :=
  if String.eqb a "" then (if String.eqb b "" then "." else normalize b)
  else if String.eqb b "" then normalize a
  else normalize (a ++ "/" ++ b).

Fixpoint child (cs : list (string * Node)) (entry : string) : option Node :=
  match cs with
  | [] => None
  | (n, c) :: rest => if String.eqb n entry then Some c else child rest entry
  end.

(** [fs.existsSync] of an entry of a directory. *)
Definition existsIn (cs : list (string * Node)) (entry : string) : bool :=
  match child cs entry with
  | Some Broken | None => false
  | Some _ => true
  end.

(** Reading and parsing an entry that exists; a directory cannot be read as
    a file. *)
Definition readManifest (cs : list (string * Node)) (entry : string)
  : Manifest :=
  match child cs entry with
  | Some (File c) => c
  | _ => Unparseable
  end.

Definition childrenOf (n : Node) : list (string * Node) :=
  match n with
  | Dir _ cs => cs
  | _ => []
  end.

(* ===================================================================== *)
(** ** DISCOVERY *)

(** [found] is a [Map<string, TitanExtension>]: its values in insertion
    order, one per key. *)
Record DState := mkDState {
  found : list TitanExtension;
  logs : list string
}.

Definition log (msg : string) (st : DState) : DState :=
  mkDState (found st) (logs st ++ [msg]).

Definition has (fs : list TitanExtension) (n : string) : bool :=
  existsb (fun e => String.eqb (name e) n) fs.

(** [found.set(name, ext)]: a new key goes last, an old key keeps its place. *)
Fixpoint mapSet (fs : list TitanExtension) (ext : TitanExtension)
  : list TitanExtension :=
  match fs with
  | [] => [ext]
  | e :: rest =>
      if String.eqb (name e) (name ext) then ext :: rest
      else e :: mapSet rest ext
  end.

Definition register (ext : TitanExtension) (st : DState) : DState :=
  mkDState (mapSet (found st) ext) (logs st).

Definition nonEmpty (s : string) : bool := negb (String.eqb s "").

Definition startsWith (p s : string) : bool := String.prefix p s.

(** The root's manifest, lines 81-99. *)
Definition checkLocal (rootDir : string) (cs : list (string * Node))
    (st : DState) : DState :=
  if existsIn cs "titan.json" then
    match readManifest cs "titan.json" with
    | JManifest tj =>
        if nonEmpty (tj_name tj) then
          log ("Found local extension: " ++ tj_name tj)
            (register (mkTitanExtension (tj_name tj) rootDir tj true) st)
        else st
    | JNoName => st
    | Unparseable | JNull => log "Warning: Invalid titan.json in project root" st
    end
  else st.

(** A candidate's manifest, lines 140-160. *)
Definition checkTitanJson (fullPath : string) (cs : list (string * Node))
    (st : DState) : DState :=
  if existsIn cs "titan.json" then
    match readManifest cs "titan.json" with
    | JManifest tj =>
        if nonEmpty (tj_name tj) && negb (has (found st) (tj_name tj)) then
          log ("Found extension: " ++ tj_name tj)
            (register (mkTitanExtension (tj_name tj) fullPath tj false) st)
        else st
    | JNoName => st
    | Unparseable | JNull => log ("Warning: Invalid titan.json in " ++ fullPath) st
    end
  else st.

Fixpoint scanNodeModules (dir : string) (node : Node) (st : DState) : DState :=
  match node with
  | Dir true entries =>
      (fix loop (es : list (string * Node)) (st : DState) : DState :=
         match es with
         | [] => st
         | (entry, c) :: rest =>
             if startsWith "." entry || String.eqb entry ".bin" then loop rest st
             else
               let fullPath := join dir entry in
               match c with
               | Dir _ cs =>
                   if startsWith "@" entry then
                     loop rest (scanNodeModules fullPath c st)
                   else
                     let st1 := checkTitanJson fullPath cs st in
                     let st2 :=
                       (fix nested (l : list (string * Node)) : DState :=
                          match l with
                          | [] => st1
                          | (n, m) :: l' =>
                              if String.eqb n "node_modules" then
                                match m with
                                | Broken => st1
                                | _ => scanNodeModules
                                         (join fullPath "node_modules") m st1
                                end
                              else nested l'
                          end) cs in
                     loop rest st2
               | _ => loop rest st
               end
         end) entries st
  | _ => st
  end.

(** The two inner steps of the loop, named: the scan of a candidate's own
    [node_modules], and the whole turn for one entry.  [scanNodeModules]
    is the fold of [scanEntry] over the directory (lemma
    [scanNodeModules_unfold]). *)
Definition scanNested (fullPath : string) (cs : list (string * Node))
    (st : DState) : DState :=
  match child cs "node_modules" with
  | Some Broken | None => st
  | Some m => scanNodeModules (join fullPath "node_modules") m st
  end.

Definition scanEntry (dir : string) (e : string * Node) (st : DState)
  : DState :=
  let '(entry, c) := e in
  if startsWith "." entry || String.eqb entry ".bin" then st
  else
    let fullPath := join dir entry in
    match c with
    | Dir _ cs =>
        if startsWith "@" entry then scanNodeModules fullPath c st
        else scanNested fullPath cs (checkTitanJson fullPath cs st)
    | _ => st
    end.

Definition discoverState (rootDir : string) (root : Node) : DState :=
  let cs := childrenOf root in
  let st := checkLocal rootDir cs (mkDState [] []) in
  match child cs "node_modules" with
  | Some Broken | None => st
  | Some nm => scanNodeModules (join rootDir "node_modules") nm st
  end.

(** [Array.from(found.values())] *)
Definition discoverExtensions (rootDir : string) (root : Node)
  : list TitanExtension :=
  found (discoverState rootDir root).

(** The messages passed to [log] during discovery. *)
Definition discoverLog (rootDir : string) (root : Node) : list string :=
  logs (discoverState rootDir root).

(* ===================================================================== *)
(** ** DEPENDENCY SORTING *)

(** The three dependency tables of a [package.json], each as its keys. *)
Record PackageJson := mkPackageJson {
  dependencies : list string;
  peerDependencies : list string;
  devDependencies : list string
}.

(** [Object.keys({...pkg.dependencies, ...pkg.peerDependencies,
    ...pkg.devDependencies})]: a key keeps the place of its first
    occurrence. *)
Fixpoint dedup (seen : list string) (l : list string) : list string :=
  match l with
  | [] => []
  | k :: rest =>
      if existsb (String.eqb k) seen then dedup seen rest
      else k :: dedup (k :: seen) rest
  end.

(** A key that is an array index: the decimal numeral, without leading
    zero, of a number up to 2^32 - 2. *)
Definition digitOf (c : ascii) : option N :=
  let n := N_of_ascii c in
  if (48 <=? n)%N && (n <=? 57)%N then Some (n - 48)%N else None.

Fixpoint parseDigits (acc : N) (s : string) : option N :=
  match s with
  | "" => Some acc
  | String c rest =>
      match digitOf c with
      | Some d => parseDigits (acc * 10 + d)%N rest
      | None => None
      end
  end.

Definition arrayIndex (k : string) : option N :=
  match k with
  | "" => None
  | String c rest =>
      if Ascii.eqb c "0" then (if String.eqb rest "" then Some 0%N else None)
      else match parseDigits 0 k with
           | Some n => if (n <=? 4294967294)%N then Some n else None
           | None => None
           end
  end.

Definition indexLe (a b : N * string) : Prop := (a.1 <= b.1)%N.

#[global] Instance indexLe_dec : RelDecision indexLe.
Proof. intros a b. unfold indexLe. apply _. Defined.

(** The order in which an object lists its own keys: array indices first,
    ascending, then the other keys in the order they were added. *)
Definition ownKeysOrder (ks : list string) : list string :=
  map snd
    (merge_sort indexLe
       (omap (fun k => (fun n => (n, k)) <$> arrayIndex k) ks))
  ++ List.filter (fun k => bool_decide (arrayIndex k = None)) ks.

Definition allDeps (pkg : PackageJson) : list string :=
  ownKeysOrder
    (dedup [] (dependencies pkg ++ peerDependencies pkg ++ devDependencies pkg)).

Record SState := mkSState {
  visiting : gset string;
  visited : gset string;
  sorted : list TitanExtension
}.

Definition foldM {A S : Type} (f : A -> S -> option S) : list A -> S -> option S :=
  fix go (l : list A) (s : S) : option S :=
    match l with
    | [] => Some s
    | a :: rest => match f a s with Some s' => go rest s' | None => None end
    end.

Section Sorting.

(** [package.json] of a directory, by the directory's path: [None] when the
    file is absent or when reading it throws (the [catch] is empty). *)
Variable readPackage : string -> option PackageJson.

(** The names the loop of [visit] runs over. *)
Definition depNames (ext : TitanExtension) : list string :=
  match readPackage (join (path ext) "package.json") with
  | Some pkg => allDeps pkg
  | None => []
  end.

(** [new Map(extensions.map(e => [e.name, e])).get(n)]: a later entry
    overwrites an earlier one of the same name. *)
Definition byName (extensions : list TitanExtension) (n : string)
  : option TitanExtension :=
  find (fun e => String.eqb (name e) n) (rev extensions).

Section Visit.
Variable extensions : list TitanExtension.

(** The closure [visit]; the recursion is bounded by [fuel], [None] is
    fuel running out. *)
Fixpoint visit (fuel : nat) (ext : TitanExtension) (st : SState)
  : option SState :=
  match fuel with
  | O => None
  | S f =>
      if decide (name ext ∈ visited st) then Some st
      else if decide (name ext ∈ visiting st) then Some st
      else
        let st1 := mkSState ({[name ext]} ∪ visiting st) (visited st)
                     (sorted st) in
        match
          foldM (fun depName s =>
                   match byName extensions depName with
                   | Some dep => visit f dep s
                   | None => Some s
                   end) (depNames ext) st1
        with
        | Some st2 =>
            Some (mkSState (visiting st2 ∖ {[name ext]})
                    ({[name ext]} ∪ visited st2)
                    (sorted st2 ++ [ext]))
        | None => None
        end
  end.
End Visit.

Definition sortFuel (extensions : list TitanExtension) : nat :=
  S (length extensions).

Definition sortWith (fuel : nat) (extensions : list TitanExtension)
  : option (list TitanExtension) :=
  let nodeModulesExts := List.filter (fun e => negb (isLocal e)) extensions in
  let localExt := find isLocal extensions in
  match foldM (visit extensions fuel) nodeModulesExts (mkSState ∅ ∅ [])
  with
  | Some st =>
      match localExt with
      | Some l => option_map sorted (visit extensions fuel l st)
      | None => Some (sorted st)
      end
  | None => None
  end.

Definition sortByDependencies (extensions : list TitanExtension)
  : option (list TitanExtension) :=
  sortWith (sortFuel extensions) extensions.

End Sorting.

(* ===================================================================== *)
(** ** EXTENSION LOADING *)

(** Result of a call into a service outside the module: a value, or the
    text of the error it throws. *)
Inductive Res (A : Type) :=
| Ok (a : A)
| Err (e : string).
Arguments Ok {A} a.
Arguments Err {A} e.

(** A loaded library is known by the path it was loaded from. *)
Definition Lib := string.

(** What the loader does that is visible from outside, in order. *)
Inductive Event :=
| ELog (msg : string)
| ELoad (dllPath : string)                        (* koffi.load *)
| EFunc (lib : Lib) (sym : string) (res : Js.Val) (params : list Js.Val)
                                                  (* lib.func *)
| EImport (mainPath : string).                    (* await import *)

Record AState := mkAState {
  heap : Js.Heap;
  events : list Event;
  loadedLibraries : list Lib
}.

Definition emit (e : Event) (st : AState) : AState :=
  mkAState (heap st) (events st ++ [e]) (loadedLibraries st).

Definition withHeap (h : Js.Heap) (st : AState) : AState :=
  mkAState h (events st) (loadedLibraries st).

(** Stands for the text of a TypeError the engine throws (a refused write,
    a call of [map] on what is not an array); the loader only copies it
    into a warning. *)
Definition typeError : string := "TypeError".

(** [path.isAbsolute] on a POSIX host. *)
Definition isAbsolute (p : string) : bool := startsWith "/" p.

Definition resolveDllPath (dllPath extPath : string) : string :=
  if isAbsolute dllPath then dllPath else pathJoin extPath dllPath.

Section Loading.

Variable existsSync : string -> bool.
Variable koffiLoad : string -> Res Lib.
Variable libFunc : Lib -> string -> Js.Val -> list Js.Val -> Res unit.
(** Running an entry module: it may change the store in any way, and it
    may throw. *)
Variable importModule : string -> Js.Heap -> Js.Heap * Res unit.

(** The namespace object [t]. *)
Variable t : Js.loc.

(** The inner [try], lines 263-267: [t[name][fnName] = lib.func(...)], with
    its [catch].  The target [t[name]] is read before the right-hand side
    is evaluated. *)
Definition tryBind (lib : Lib) (nm fnName sym : string) (res : Js.Val)
    (params : list Js.Val) (st : AState) : AState :=
  let target := Js.get (heap st) t nm in
  let st1 := emit (EFunc lib sym res params) st in
  match libFunc lib sym res params with
  | Ok _ =>
      let '(f, h1) := Js.alloc (heap st1) [] in
      match Js.setV h1 target fnName (Js.VRef f) with
      | Some h2 => withHeap h2 st1
      | None =>
          emit (ELog ("Warning: Failed to load native function " ++ fnName
                      ++ ": " ++ typeError)) (withHeap h1 st1)
      end
  | Err e =>
      emit (ELog ("Warning: Failed to load native function " ++ fnName
                  ++ ": " ++ e)) st1
  end.

(** One turn of the loop over [Object.entries(titanJson.native.functions)],
    lines 259-268.  The two translations stand before the inner [try]: when
    [def.parameters.map] throws, the error leaves the turn ([Err]). *)
Definition bindFunction (lib : Lib) (nm : string)
    (fn : string * NativeFunctionDef) (st : AState) : AState * Res unit :=
  let '(fnName, def) := fn in
  match parameters def with
  | None => (st, Err typeError)
  | Some ps =>
      let params := map (translateType (heap st)) ps in
      let res := translateType (heap st) (result def) in
      (tryBind lib nm fnName (symbol def) res params st, Ok tt)
  end.

(** The loop: an error that leaves a turn ends it. *)
Fixpoint bindFunctions (lib : Lib) (nm : string)
    (fns : list (string * NativeFunctionDef)) (st : AState)
  : AState * Res unit :=
  match fns with
  | [] => (st, Ok tt)
  | fn :: rest =>
      match bindFunction lib nm fn st with
      | (st1, Ok _) => bindFunctions lib nm rest st1
      | (st1, Err e) => (st1, Err e)
      end
  end.

(** [if (hook in v8_functions) t[name][hook] = fn], lines 273-278; [Err]
    is the write throwing. *)
Definition bindHook (nm : string) (keys : list string) (hook : string)
    (fn : Js.loc) (st : AState) : AState * Res unit :=
  if existsb (String.eqb hook) keys then
    match Js.setV (heap st) (Js.get (heap st) t nm) hook (Js.VRef fn) with
    | Some h => (withHeap h st, Ok tt)
    | None => (st, Err typeError)
    end
  else (st, Ok tt).

Definition bindHooks (nm : string) (keys : list string) (st : AState)
  : AState * Res unit :=
  match bindHook nm keys "serialize" Js.v8_serialize st with
  | (st1, Ok _) => bindHook nm keys "deserialize" Js.v8_deserialize st1
  | (st1, Err e) => (st1, Err e)
  end.

(** The body of the outer [try], lines 254-281, after a successful
    [koffi.load]. *)
Definition bindLibrary (lib : Lib) (nm dllPath : string) (nat : Native)
    (st : AState) : AState :=
  let st1 := mkAState (heap st) (events st) (loadedLibraries st ++ [lib]) in
  let r :=
    match
      match functions nat with
      | Some fns => bindFunctions lib nm fns st1
      | None => (st1, Ok tt)
      end
    with
    | (st2, Ok _) =>
        match v8_functions nat with
        | Some keys => bindHooks nm keys st2
        | None => (st2, Ok tt)
        end
    | (st2, Err e) => (st2, Err e)
    end in
  match r with
  | (st3, Ok _) => emit (ELog ("Loaded native: " ++ dllPath)) st3
  | (st3, Err e) =>
      emit (ELog ("Warning: Failed to load DLL " ++ dllPath ++ ": " ++ e)) st3
  end.

(** [if (titanJson.native?.path) { ... }], lines 249-288. *)
Definition loadNative (ext : TitanExtension) (st : AState) : AState :=
  match native (titanJson ext) with
  | Some nat =>
      if nonEmpty (native_path nat) then
        let dllPath := resolveDllPath (native_path nat) (path ext) in
        if existsSync dllPath then
          let st1 := emit (ELoad dllPath) st in
          match koffiLoad dllPath with
          | Ok lib => bindLibrary lib (name ext) dllPath nat st1
          | Err e =>
              emit (ELog ("Warning: Failed to load DLL " ++ dllPath
                          ++ ": " ++ e)) st1
          end
        else emit (ELog ("Warning: DLL not found: " ++ dllPath)) st
      else st
  | None => st
  end.

(** [t[name] = t[name] || {}]; [None] is the assignment throwing, which
    nothing in [loadExtension] catches. *)
Definition initNamespace (nm : string) (st : AState) : option AState :=
  let v := Js.get (heap st) t nm in
  if Js.truthy v then
    option_map (fun h => withHeap h st) (Js.set (heap st) t nm v)
  else
    let '(l, h1) := Js.alloc (heap st) [] in
    option_map (fun h => withHeap h st) (Js.set h1 t nm (Js.VRef l)).

(** Everything of [loadExtension] before the entry module, lines 240-288. *)
Definition bindingPhase (ext : TitanExtension) (st : AState)
  : option AState :=
  let label := if isLocal ext then "(local)" else "" in
  let st0 := emit (ELog ("Loading: " ++ name ext ++ " " ++ label)) st in
  option_map (loadNative ext) (initNamespace (name ext) st0).

Definition mainPath (ext : TitanExtension) : string :=
  let mainFile :=
    match main (titanJson ext) with
    | Some m => if nonEmpty m then m else "index.js"
    | None => "index.js"
    end in
  pathJoin (path ext) mainFile.

(** Lines 290-301. *)
Definition loadMain (ext : TitanExtension) (st : AState) : AState :=
  if existsSync (mainPath ext) then
    let st1 := emit (EImport (mainPath ext)) st in
    match importModule (mainPath ext) (heap st1) with
    | (h, Ok _) => emit (ELog ("Loaded JS: " ++ mainPath ext)) (withHeap h st1)
    | (h, Err e) =>
        emit (ELog ("Warning: Failed to load JS " ++ mainPath ext ++ ": " ++ e))
          (withHeap h st1)
    end
  else st.

Definition loadExtension (ext : TitanExtension) (st : AState)
  : option AState :=
  option_map (loadMain ext) (bindingPhase ext st).

End Loading.

(** The namespace as [bootstrap] creates it, lines 337-340: a logging
    function and an empty [native] bag.  The logger is a function in the
    sense of [Js.functionObj]. *)
Definition newNamespace (h : Js.Heap) : Js.loc * Js.Heap :=
  let '(logFn, h1) := Js.alloc h [] in
  let '(nativeBag, h2) := Js.alloc h1 [] in
  Js.alloc h2 [("log", Js.VRef logFn); ("native", Js.VRef nativeBag)].

(** *** The dependency relation behind the sort *)

Section Graph.
Variable readPackage : string -> option PackageJson.
Variable extensions : list TitanExtension.

(** [a] depends on [b]: [b] is a key of the merged dependency tables of the
    extension named [a], and names a discovered extension. *)
Definition edge (a b : string) : Prop :=
  exists x, x ∈ extensions /\ name x = a
            /\ b ∈ depNames readPackage x /\ b ∈ map name extensions.

Definition acyclic : Prop := forall n, ~ tc edge n n.

(** [b] comes before [a] in [l]. *)
Definition precedes (b a : TitanExtension) (l : list TitanExtension) : Prop :=
  exists l1 l2 l3, l = (l1 ++ b :: l2 ++ a :: l3)%list.
End Graph.

(** What discovery guarantees about its result (theorem
    [discoverExtensions_invariant]). *)
Definition discovered (extensions : list TitanExtension) : Prop :=
  NoDup (map name extensions)
  /\ length (List.filter isLocal extensions) <= 1.

(* ===================================================================== *)
(** ** Invariants used in the proofs *)

(** What a scan may do to the map: add entries that are not local, at the
    end, under names that were free. *)
Definition extends (st st' : DState) : Prop :=
  exists added,
    found st' = (found st ++ added)%list
    /\ Forall (fun e => isLocal e = false) added
    /\ (NoDup (map name (found st)) -> NoDup (map name (found st'))).

Definition all_children (P : Node -> Prop) (n : Node) : Prop :=
  Forall (fun nc => P nc.2) (childrenOf n).

Section SortInvariants.
Variable readPackage : string -> option PackageJson.
Variable extensions : list TitanExtension.

(** Every element comes after the discovered extensions it depends on. *)
Definition ordered (l : list TitanExtension) : Prop :=
  forall l1 x l2, l = (l1 ++ x :: l2)%list ->
    forall d, d ∈ depNames readPackage x -> d ∈ map name extensions ->
              d ∈ map name l1.

(** The bookkeeping of the sort: [visited] holds exactly the names of what
    was emitted, nothing was emitted twice, everything emitted was
    discovered, and nothing is both being visited and done. *)
Record Inv (st : SState) : Prop := mkInv {
  inv_visited : visited st = list_to_set (map name (sorted st));
  inv_nodup : NoDup (map name (sorted st));
  inv_incl : forall e, e ∈ sorted st -> e ∈ extensions;
  inv_disj : visiting st ## visited st
}.

(** What one call of [visit] does to the state. *)
Record Post (ext : TitanExtension) (st st' : SState) : Prop := mkPost {
  post_inv : Inv st';
  post_visiting : visiting st' = visiting st;
  post_visited : visited st ⊆ visited st';
  post_sorted : sorted st `prefix_of` sorted st';
  post_done : name ext ∈ visiting st \/ name ext ∈ visited st'
}.

End SortInvariants.

(** A store in which [t] can serve as the namespace: [t] is an object other
    than [Object.prototype], and [Object.prototype] ends every chain and
    holds [__proto__] as its accessor only. *)
Definition wfNamespace (h : Js.Heap) (t : Js.loc) : Prop :=
  is_Some (h !! t)
  /\ t <> Js.objProto
  /\ exists op, h !! Js.objProto = Some op
                /\ Js.proto op = None
                /\ Js.props op !! "__proto__" = None.

(** [b] is the bag of the extension [nm]: an object of its own, held by [t]
    as an own property. *)
Definition isBag (h : Js.Heap) (t : Js.loc) (nm : string) (b : Js.loc) : Prop :=
  Js.own h t nm = Some (Js.VRef b) /\ b <> t /\ is_Some (h !! b).

(** The value under [t[nm]] is nothing, or an object of its own: not a
    string, not [t] itself. *)
Definition bagOrAbsent (h : Js.Heap) (t : Js.loc) (nm : string) : Prop :=
  match Js.get h t nm with
  | Js.VUndef => True
  | Js.VStr s => s = ""
  | Js.VRef b => b <> t /\ is_Some (h !! b)
  end.

(** The hooks a manifest declares, of the two the loader knows. *)
Definition declaredHooks (nat : Native) : list string :=
  match v8_functions nat with
  | Some keys =>
      List.filter (fun hook => existsb (String.eqb hook) keys)
        ["serialize"; "deserialize"]
  | None => []
  end.

(** The symbols requested from [lib.func], in order. *)
Definition funcRequests (evs : list Event) : list string :=
  omap (fun e => match e with EFunc _ sym _ _ => Some sym | _ => None end) evs.

(** Own properties of [h] are those of [h0], except perhaps [k] of [l];
    objects of [h0] are objects of [h]. *)
Definition frame (l : Js.loc) (k : string) (h0 h : Js.Heap) : Prop :=
  (forall l' k', l' <> l \/ k' <> k -> is_Some (h0 !! l') ->
                 Js.own h l' k' = Js.own h0 l' k')
  /\ (forall l', is_Some (h0 !! l') -> is_Some (h !! l')).

(** The declared functions, none when the manifest has no [functions]. *)
Definition declaredFunctions (nat : Native)
  : list (string * NativeFunctionDef) :=
  match functions nat with
  | Some fns => fns
  | None => []
  end.

Definition hookTarget (hook : string) : Js.loc :=
  if String.eqb hook "serialize" then Js.v8_serialize else Js.v8_deserialize.

(** Every declaration carries an array of parameter types. *)
Definition wellDeclared (nat : Native) : Prop :=
  Forall (fun fn : string * NativeFunctionDef => is_Some (parameters fn.2))
    (declaredFunctions nat).

(* ===================================================================== *)
(** ** Concrete projects used below *)

Module Ex.

Definition tj (n : string) : TitanJson := mkTitanJson n None None.

(** A project [app] with one dependency [core] whose [package.json] lists
    [app] among its dependencies. *)
Definition app : TitanExtension := mkTitanExtension "app" "/r" (tj "app") true.
Definition core : TitanExtension :=
  mkTitanExtension "core" "/r/node_modules/core" (tj "core") false.

Definition corePackage (p : string) : option PackageJson :=
  if String.eqb p "/r/node_modules/core/package.json"
  then Some (mkPackageJson ["app"] [] [])
  else None.

(** Two packages that depend on each other. *)
Definition cycA : TitanExtension :=
  mkTitanExtension "a" "/r/node_modules/a" (tj "a") false.
Definition cycB : TitanExtension :=
  mkTitanExtension "b" "/r/node_modules/b" (tj "b") false.

Definition cyclePackages (p : string) : option PackageJson :=
  if String.eqb p "/r/node_modules/a/package.json"
  then Some (mkPackageJson ["b"] [] [])
  else if String.eqb p "/r/node_modules/b/package.json"
  then Some (mkPackageJson [] ["a"] [])
  else None.

(** [app] needs [core] at run time; [core] needs nothing. *)
Definition appPackages (p : string) : option PackageJson :=
  if String.eqb p "/r/package.json"
  then Some (mkPackageJson ["core"; "left-pad"] [] ["vitest"])
  else None.

(** A project whose [titan.json] parses but has no [name]. *)
Definition noNameRoot : Node := Dir true [("titan.json", File JNoName)].

(** A project whose [titan.json] is not JSON. *)
Definition badRoot : Node := Dir true [("titan.json", File Unparseable)].

(** A project [app] that also finds a package named [app] among its
    dependencies. *)
Definition clashRoot : Node :=
  Dir true
    [ ("titan.json", File (JManifest (tj "app")));
      ("node_modules",
       Dir true
         [ ("app", Dir true [("titan.json", File (JManifest (tj "app")))]);
           ("core", Dir true [("titan.json", File (JManifest (tj "core")))]) ]) ].

(** The namespace right after [bootstrap] has created it. *)
Definition t0 : Js.loc := fst (newNamespace moduleHeap).
Definition st0 : AState := mkAState (snd (newNamespace moduleHeap)) [] [].

(** [core] with a native library, one function and the [serialize] hook. *)
Definition addDef : NativeFunctionDef :=
  mkNativeFunctionDef "core_add" (Some ["f64"; "f64"]) "f64".
Definition subDef : NativeFunctionDef :=
  mkNativeFunctionDef "core_sub" (Some ["f64"; "f64"]) "f64".

Definition coreNative : Native :=
  mkNative "native/core.so" (Some [("add", addDef); ("sub", subDef)])
    (Some ["serialize"]).

Definition nativeCore : TitanExtension :=
  mkTitanExtension "core" "/r/node_modules/core"
    (mkTitanJson "core" None (Some coreNative)) false.

(** The same manifest under the name [__proto__]. *)
Definition protoExt : TitanExtension :=
  mkTitanExtension "__proto__" "/r/node_modules/p"
    (mkTitanJson "__proto__" None (Some coreNative)) false.

(** Hosts: no file exists; every file exists and every call succeeds; every
    file exists and only the symbol [core_sub] cannot be bound. *)
Definition noFiles (p : string) : bool := false.
Definition allFiles (p : string) : bool := true.
Definition loadOk (p : string) : Res Lib := Ok p.
Definition funcOk (lib : Lib) (sym : string) (res : Js.Val)
    (params : list Js.Val) : Res unit := Ok tt.
Definition importNothing (p : string) (h : Js.Heap) : Js.Heap * Res unit :=
  (h, Ok tt).

(** A project without a manifest whose [node_modules] holds only hidden
    entries. *)
Definition hiddenRoot : Node :=
  Dir true
    [ ("node_modules",
       Dir true
         [ (".bin", Dir true [("titan.json", File (JManifest (tj "x")))]);
           (".cache", Dir true []) ]) ].

(** A manifest whose second declaration has no [parameters]: [sub] cannot
    be bound, [bad] has no array to map, [add] comes after it. *)
Definition badDef : NativeFunctionDef :=
  mkNativeFunctionDef "core_bad" None "void".

Definition badNative : Native :=
  mkNative "native/core.so"
    (Some [("sub", subDef); ("bad", badDef); ("add", addDef)])
    (Some ["serialize"]).

Definition badCore : TitanExtension :=
  mkTitanExtension "core" "/r/node_modules/core"
    (mkTitanJson "core" None (Some badNative)) false.

End Ex.

(* ===================================================================== *)
(** ** MAIN API *)

(** [options] of [bootstrap], each field optional. *)
Record MicroGravityOptions := mkOptions {
  rootDir : option string;
  verbose : option bool
}.

(** The wrapper [log] of [bootstrap], lines 330-334: with [verbose] each
    message reaches the logger under the prefix [[MicroGravity]], without it
    nothing does. *)
Definition loggerOutput (verbose : bool) (evs : list Event) : list string :=
  if verbose then
    omap (fun e => match e with
                   | ELog msg => Some ("[MicroGravity] " ++ msg)
                   | _ => None
                   end) evs
  else [].

(** What [bootstrap] leaves behind: the two global bindings, the store, the
    calls made, and the libraries kept. *)
Record Booted := mkBooted {
  global_t : Js.loc;
  global_Titan : Js.loc;
  final : AState
}.

Definition countLocal (exts : list TitanExtension) : nat :=
  length (List.filter isLocal exts).

Definition countDeps (exts : list TitanExtension) : nat :=
  length (List.filter (fun e => negb (isLocal e)) exts).

Definition foundSummary (exts : list TitanExtension) : string :=
  "Found " ++ pretty (length exts) ++ " extension(s): "
  ++ pretty (countLocal exts) ++ " local, "
  ++ pretty (countDeps exts) ++ " dependencies".

Section Main.

Variable readPackage : string -> option PackageJson.
Variable existsSync : string -> bool.
Variable koffiLoad : string -> Res Lib.
Variable libFunc : Lib -> string -> Js.Val -> list Js.Val -> Res unit.
Variable importModule : string -> Js.Heap -> Js.Heap * Res unit.

(** The loop [for (const ext of sorted) await loadExtension(ext, t, log)]:
    an extension is started only when the one before it has finished;
    [None] is an exception that leaves [bootstrap]. *)
Definition loadAll (t : Js.loc) (sorted : list TitanExtension) (st : AState)
  : option AState :=
  foldM (loadExtension existsSync koffiLoad libFunc importModule t) sorted st.

(** [bootstrap], lines 323-366, on the directory tree [root] found at
    [dir]; [h] and [libs] are the store and the kept libraries when it is
    called.  The result is [None] when an exception leaves it; the sort
    itself always returns on what discovery gives (lemma
    [discoverExtensions_discovered] with [sortWith_spec]). *)
Definition bootstrapIn (dir : string) (root : Node) (h : Js.Heap)
    (libs : list Lib) : option Booted :=
  let '(t, h1) := newNamespace h in
  let ds := discoverState dir root in
  let st0 := mkAState h1 (map ELog (logs ds)) libs in
  let extensions := found ds in
  if Nat.eqb (length extensions) 0 then
    Some (mkBooted t t (emit (ELog "No TitanPL extensions found") st0))
  else
    let st1 := emit (ELog (foundSummary extensions)) st0 in
    match sortByDependencies readPackage extensions with
    | Some sorted =>
        match loadAll t sorted st1 with
        | Some st2 => Some (mkBooted t t (emit (ELog "Ready!") st2))
        | None => None
        end
    | None => None
    end.

(** [bootstrap(options)]: [rootDir] defaults to the working directory
    [cwd]; [fs] gives the tree at a path. *)
Definition bootstrap (cwd : string) (fs : string -> Node)
    (options : MicroGravityOptions) (h : Js.Heap) (libs : list Lib)
  : option Booted :=
  let dir := default cwd (rootDir options) in
  bootstrapIn dir (fs dir) h libs.

End Main.

(** [getLoadedExtensions(rootDir)]: discovery with a logger that drops
    every message. *)
Definition getLoadedExtensions (cwd : string) (fs : string -> Node)
    (dir : option string) : list TitanExtension :=
  discoverExtensions (default cwd dir) (fs (default cwd dir)).

(** [hasExtension(name)]: [globalThis.t?.[name] !== undefined]; [gt] is the
    global [t], absent before the first [bootstrap]. *)
Definition hasExtension (gt : option Js.loc) (h : Js.Heap) (nm : string)
  : bool :=
  match gt with
  | Some t => negb (bool_decide (Js.get h t nm = Js.VUndef))
  | None => false
  end.

(** *** Messages of discovery *)

(** The message logged when [e] is registered. *)
Definition foundMessage (e : TitanExtension) : string :=
  if isLocal e then "Found local extension: " ++ name e
  else "Found extension: " ++ name e.

(** The messages of a log that report a registration. *)
Definition foundMessages (msgs : list string) : list string :=
  List.filter (String.prefix "Found ") msgs.

(** The ["Loading: ..."] message of [loadExtension]. *)
Definition loadingMessage (ext : TitanExtension) : string :=
  "Loading: " ++ name ext ++ " " ++ (if isLocal ext then "(local)" else "").

(** The ["Loading: ..."] messages among the events, in order. *)
Definition loadings (evs : list Event) : list string :=
  omap (fun e => match e with
                 | ELog msg =>
                     if String.prefix "Loading: " msg then Some msg else None
                 | _ => None
                 end) evs.

(** What a scan adds is registered under [dir], has a name, the name of its
    manifest, and its message in the log. *)
Definition scanned (dir : string) (st st' : DState) : Prop :=
  exists added,
    found st' = (found st ++ added)%list
    /\ Forall (fun e => String.prefix dir (path e) = true
                        /\ isLocal e = false
                        /\ name e <> ""
                        /\ name e = tj_name (titanJson e)) added
    /\ exists msgs,
         logs st' = (logs st ++ msgs)%list
         /\ foundMessages msgs = map foundMessage added.

(** [st'] is [st] after more events, none of them a ["Loading: ..."]
    message, with the same libraries kept. *)
Definition quiet (st st' : AState) : Prop :=
  exists evs,
    events st' = (events st ++ evs)%list
    /\ loadings evs = []
    /\ loadedLibraries st' = loadedLibraries st.

(** The library an activation adds to the kept ones: the one it loads. *)
Definition loadedBy (existsSync : string -> bool)
    (koffiLoad : string -> Res Lib) (ext : TitanExtension) : list Lib :=
  match native (titanJson ext) with
  | Some nat =>
      if nonEmpty (native_path nat) then
        if existsSync (resolveDllPath (native_path nat) (path ext)) then
          match koffiLoad (resolveDllPath (native_path nat) (path ext)) with
          | Ok lib => [lib]
          | Err _ => []
          end
        else []
      else []
  | None => []
  end.

(** [st'] is [st] after more messages, none of them a ["Loading: ..."]
    one. *)
Definition mute (st st' : DState) : Prop :=
  exists msgs,
    logs st' = (logs st ++ msgs)%list /\ loadings (map ELog msgs) = [].

(* ===================================================================== *)
(** * Properties *)

(** ** The type-alias table *)

Lemma moduleHeap_TYPE_MAP :
  moduleHeap !! TYPE_MAP
  = Some (Js.mkObj (list_to_map TYPE_MAP_entries) (Some Js.objProto)).
Proof. vm_compute. reflexivity. Qed.

Lemma moduleHeap_objProto :
  moduleHeap !! Js.objProto
  = Some (Js.mkObj (list_to_map Js.builtinProps) None).
Proof. vm_compute. reflexivity. Qed.

Lemma chainFuel_moduleHeap : Js.chainFuel moduleHeap = 16.
Proof. vm_compute. reflexivity. Qed.

Lemma builtinProps_keys : Js.builtinProps.*1 = Js.objectPrototypeKeys.
Proof. reflexivity. Qed.

(** The four aliases go to their koffi tokens. *)
Lemma translateType_aliases :
  translateType moduleHeap "string" = Js.VStr "str"
  /\ translateType moduleHeap "f64" = Js.VStr "double"
  /\ translateType moduleHeap "bool" = Js.VStr "bool"
  /\ translateType moduleHeap "void" = Js.VStr "void".
Proof. repeat split; vm_compute; reflexivity. Qed.

(** A name that is neither an alias nor a property every object inherits is
    handed on as it is. *)
Lemma translateType_passthrough (p : string) :
  p ∉ TYPE_MAP_entries.*1 ->
  p ∉ Js.objectPrototypeKeys ->
  p <> "__proto__" ->
  translateType moduleHeap p = Js.VStr p.
Proof.
  intros Hal Hpr Hp.
  unfold translateType, Js.get.
  rewrite chainFuel_moduleHeap.
  cbn [Js.lookupChain].
  rewrite moduleHeap_TYPE_MAP. cbn [Js.props Js.proto].
  rewrite (not_elem_of_list_to_map_1 _ _ Hal).
  rewrite moduleHeap_objProto. cbn [Js.props Js.proto].
  rewrite <- builtinProps_keys in Hpr.
  rewrite (not_elem_of_list_to_map_1 _ _ Hpr).
  destruct (decide (p = "__proto__")) as [->|_]; [done|].
  reflexivity.
Qed.

(** C2, at a name every plain object inherits: the table lookup finds
    [Object.prototype.toString], a function, and that function is what the
    translation returns, not the string it was given. *)
Theorem translateType_toString :
  translateType moduleHeap "toString" = Js.VRef (Js.builtinLoc 8)
  /\ translateType moduleHeap "toString" <> Js.VStr "toString"
  /\ translateType moduleHeap "constructor" <> Js.VStr "constructor".
Proof. repeat split; vm_compute; congruence. Qed.

(** ** Discovery *)

(** Induction over a directory tree, with the property available for every
    entry of a directory. *)
Lemma Node_tree_ind (P : Node -> Prop) :
  (forall c, P (File c)) ->
  P Broken ->
  (forall r cs, Forall (fun nc => P nc.2) cs -> P (Dir r cs)) ->
  forall n, P n.
Proof.
  intros HF HB HD.
  fix IH 1. intros [c|r cs|].
  - apply HF.
  - apply HD. induction cs as [|[n c] cs IHcs]; constructor; [apply IH|exact IHcs].
  - apply HB.
Qed.

Lemma has_true (fs : list TitanExtension) (n : string) :
  has fs n = true <-> n ∈ map name fs.
Proof.
  unfold has. rewrite existsb_exists. split.
  - intros (e & He & Heq). apply String.eqb_eq in Heq. subst.
    apply list_elem_of_In, in_map, He.
  - intros Hin. apply list_elem_of_In, in_map_iff in Hin as (e & <- & He).
    exists e. split; [done|apply String.eqb_refl].
Qed.

Lemma has_false (fs : list TitanExtension) (n : string) :
  has fs n = false <-> n ∉ map name fs.
Proof.
  rewrite <- has_true. destruct (has fs n); naive_solver.
Qed.

(** Setting a key the map does not hold appends. *)
Lemma mapSet_fresh (fs : list TitanExtension) (ext : TitanExtension) :
  has fs (name ext) = false -> mapSet fs ext = (fs ++ [ext])%list.
Proof.
  induction fs as [|e fs IH]; [done|].
  cbn. destruct (String.eqb (name e) (name ext)); [done|].
  cbn. intros H. by rewrite IH.
Qed.

Lemma extends_refl (st : DState) : extends st st.
Proof. exists []. by rewrite app_nil_r. Qed.

Lemma extends_trans (a b c : DState) : extends a b -> extends b c -> extends a c.
Proof.
  intros (x & Hx & Fx & Nx) (y & Hy & Fy & Ny).
  exists (x ++ y)%list. split; [by rewrite Hy, Hx, app_assoc|].
  split; [by apply Forall_app|auto].
Qed.

Lemma extends_log (msg : string) (st : DState) : extends st (log msg st).
Proof. exists []. by rewrite app_nil_r. Qed.

Lemma checkTitanJson_extends (fullPath : string) (cs : list (string * Node))
    (st : DState) :
  extends st (checkTitanJson fullPath cs st).
Proof.
  unfold checkTitanJson.
  destruct (existsIn cs "titan.json"); [|apply extends_refl].
  destruct (readManifest cs "titan.json") as [| | |tj];
    try apply extends_log; try apply extends_refl.
  destruct (nonEmpty (tj_name tj)); [|apply extends_refl]. cbn.
  destruct (has (found st) (tj_name tj)) eqn:Hhas; [apply extends_refl|]. cbn.
  exists [mkTitanExtension (tj_name tj) fullPath tj false]. cbn.
  split; [by apply mapSet_fresh|]. split; [by constructor|].
  intros Hnd. rewrite mapSet_fresh by done.
  rewrite map_app. cbn. apply NoDup_app. split; [done|].
  split; [|apply NoDup_singleton].
  intros x Hx Hx'. apply list_elem_of_singleton in Hx'. subst.
  by apply has_false in Hhas.
Qed.

Lemma scanNested_eq (fullPath : string) (cs : list (string * Node))
    (st1 : DState) :
  (fix nested (l : list (string * Node)) : DState :=
     match l with
     | [] => st1
     | (n, m) :: l' =>
         if String.eqb n "node_modules" then
           match m with
           | Broken => st1
           | _ => scanNodeModules (join fullPath "node_modules") m st1
           end
         else nested l'
     end) cs = scanNested fullPath cs st1.
Proof.
  unfold scanNested. induction cs as [|[n m] l IH]; [done|].
  cbn [child]. destruct (String.eqb n "node_modules"); [|exact IH].
  by destruct m.
Qed.

Lemma scanNodeModules_unfold (dir : string) (es : list (string * Node))
    (st : DState) :
  scanNodeModules dir (Dir true es) st
  = fold_left (fun s e => scanEntry dir e s) es st.
Proof.
  cbn [scanNodeModules]. revert st.
  induction es as [|[entry c] rest IH]; intros st; [done|].
  cbn [fold_left scanEntry].
  destruct (startsWith "." entry || String.eqb entry ".bin"); [apply IH|].
  destruct c as [m|r cs|]; try apply IH.
  destruct (startsWith "@" entry); [apply IH|].
  rewrite scanNested_eq. apply IH.
Qed.

Lemma scanNodeModules_other (dir : string) (node : Node) (st : DState) :
  (forall es, node <> Dir true es) -> scanNodeModules dir node st = st.
Proof. destruct node as [|[] ?|]; try done. intros H. by destruct (H children). Qed.

(** The same induction, with the property also at hand for the entries of
    every entry. *)
Lemma Node_tree_ind2 (P : Node -> Prop) :
  (forall c, P (File c)) ->
  P Broken ->
  (forall r cs, Forall (fun nc => P nc.2 /\ all_children P nc.2) cs ->
                P (Dir r cs)) ->
  forall n, P n.
Proof.
  intros HF HB HD n.
  cut (P n /\ all_children P n); [tauto|].
  induction n as [c| |r cs IH] using Node_tree_ind.
  - split; [apply HF|constructor].
  - split; [apply HB|constructor].
  - split; [by apply HD|].
    unfold all_children. cbn. eapply Forall_impl; [exact IH|]. cbn. tauto.
Qed.

Lemma child_Forall (P : Node -> Prop) (cs : list (string * Node))
    (e : string) (m : Node) :
  Forall (fun nc => P nc.2) cs -> child cs e = Some m -> P m.
Proof.
  induction 1 as [|[n c] l Hc _ IH]; [done|].
  cbn. destruct (String.eqb n e); [|exact IH]. by intros [= <-].
Qed.

(** Any relation between the states before and after that holds across a
    manifest check, and is reflexive and transitive, holds across a scan. *)
Lemma scanNodeModules_preserves (R : DState -> DState -> Prop) :
  (forall st, R st st) ->
  (forall a b c, R a b -> R b c -> R a c) ->
  (forall p cs st, R st (checkTitanJson p cs st)) ->
  forall node dir st, R st (scanNodeModules dir node st).
Proof.
  intros Hrefl Htrans Hcheck.
  induction node as [c| |r cs IH] using Node_tree_ind2; intros dir st;
    try apply Hrefl.
  destruct r; [|apply Hrefl].
  rewrite scanNodeModules_unfold. revert st.
  induction IH as [|[entry c] rest [Hc Hcc] _ IHrest]; intros st; [apply Hrefl|].
  cbn [fold_left]. eapply Htrans; [|apply IHrest].
  cbn [scanEntry].
  destruct (startsWith "." entry || String.eqb entry ".bin"); [apply Hrefl|].
  destruct c as [m|r' cs'|]; try apply Hrefl.
  destruct (startsWith "@" entry); [apply Hc|].
  eapply Htrans; [apply Hcheck|].
  unfold scanNested.
  destruct (child cs' "node_modules") as [m|] eqn:Hm; [|apply Hrefl].
  pose proof (child_Forall _ _ _ _ Hcc Hm) as Hm'. cbn in Hm'.
  destruct m; try apply Hm'. apply Hrefl.
Qed.

Lemma scanNodeModules_extends (node : Node) (dir : string) (st : DState) :
  extends st (scanNodeModules dir node st).
Proof.
  apply scanNodeModules_preserves.
  - apply extends_refl.
  - apply extends_trans.
  - apply checkTitanJson_extends.
Qed.

Lemma filter_isLocal_nil (l : list TitanExtension) :
  Forall (fun e => isLocal e = false) l -> List.filter isLocal l = [].
Proof.
  induction 1 as [|e l He _ IH]; [done|]. cbn. by rewrite He.
Qed.

(** The root's manifest leaves the map empty or with the one local entry. *)
Lemma checkLocal_found (rootDir : string) (cs : list (string * Node)) :
  let st := checkLocal rootDir cs (mkDState [] []) in
  match readManifest cs "titan.json" with
  | JManifest tj =>
      if existsIn cs "titan.json" && nonEmpty (tj_name tj)
      then found st = [mkTitanExtension (tj_name tj) rootDir tj true]
      else found st = []
  | _ => found st = []
  end.
Proof.
  unfold checkLocal.
  destruct (readManifest cs "titan.json") as [| | |tj];
    destruct (existsIn cs "titan.json"); try done.
  cbn. by destruct (nonEmpty (tj_name tj)).
Qed.

Lemma discoverState_extends (rootDir : string) (root : Node) :
  extends (checkLocal rootDir (childrenOf root) (mkDState [] []))
          (discoverState rootDir root).
Proof.
  unfold discoverState.
  destruct (child (childrenOf root) "node_modules") as [[| |]|];
    try apply extends_refl; apply scanNodeModules_extends.
Qed.

(** C3 as the code has it: a manifest that cannot be read or parsed (or is
    the JSON value [null]) registers nothing and logs one warning; a
    manifest that parses but has no name, or an empty one, registers nothing
    and logs nothing.  Both for the project root and for a candidate
    directory [dir]. *)
Theorem malformed_manifest_handling (dir : string)
    (cs : list (string * Node)) (st : DState) :
  existsIn cs "titan.json" = true ->
  match readManifest cs "titan.json" with
  | Unparseable | JNull =>
      found (checkLocal dir cs st) = found st
      /\ logs (checkLocal dir cs st)
         = (logs st ++ ["Warning: Invalid titan.json in project root"])%list
      /\ found (checkTitanJson dir cs st) = found st
      /\ logs (checkTitanJson dir cs st)
         = (logs st ++ [("Warning: Invalid titan.json in " ++ dir)%string])%list
  | JNoName =>
      checkLocal dir cs st = st /\ checkTitanJson dir cs st = st
  | JManifest tj =>
      tj_name tj = "" ->
      checkLocal dir cs st = st /\ checkTitanJson dir cs st = st
  end.
Proof.
  intros Hex. unfold checkLocal, checkTitanJson. rewrite Hex.
  destruct (readManifest cs "titan.json") as [| | |tj]; try done.
  intros ->. done.
Qed.

Lemma malformed_manifest_handling_witness :
  logs (checkTitanJson "/r/node_modules/x" [("titan.json", File Unparseable)]
          (mkDState [] []))
  = ["Warning: Invalid titan.json in /r/node_modules/x"].
Proof.
  pose proof (malformed_manifest_handling "/r/node_modules/x"
                [("titan.json", File Unparseable)] (mkDState [] [])
                eq_refl) as H.
  cbn in H. apply H.
Defined.

(** C3 as stated fails: a root manifest without a name is passed over in
    silence, no warning reaches the log. *)
Lemma missing_name_no_warning :
  discoverExtensions "/r" Ex.noNameRoot = []
  /\ discoverLog "/r" Ex.noNameRoot = [].
Proof. split; reflexivity. Qed.

(** C4: the names of a discovery are pairwise distinct, at most one entry is
    local, a scan never replaces or removes what is registered, and a named
    root manifest yields the first entry, local, with no other entry of its
    name. *)
Theorem discoverExtensions_invariant (rootDir : string) (root : Node) :
  let r := discoverExtensions rootDir root in
  NoDup (map name r)
  /\ length (List.filter isLocal r) <= 1
  /\ (forall dir node st,
        exists added,
          found (scanNodeModules dir node st) = (found st ++ added)%list)
  /\ (forall tj,
        existsIn (childrenOf root) "titan.json" = true ->
        readManifest (childrenOf root) "titan.json" = JManifest tj ->
        tj_name tj <> "" ->
        exists rest,
          r = mkTitanExtension (tj_name tj) rootDir tj true :: rest
          /\ Forall (fun e => isLocal e = false) rest
          /\ tj_name tj ∉ map name rest).
Proof.
  cbn zeta. unfold discoverExtensions.
  destruct (discoverState_extends rootDir root) as (added & Hfound & Hloc & Hnd).
  pose proof (checkLocal_found rootDir (childrenOf root)) as Hl. cbn zeta in Hl.
  set (st0 := checkLocal rootDir (childrenOf root) (mkDState [] [])) in *.
  assert (Hst0 : found st0 = [] \/ exists e, found st0 = [e]).
  { destruct (readManifest (childrenOf root) "titan.json"); auto.
    destruct (existsIn (childrenOf root) "titan.json" && nonEmpty (tj_name tj));
      eauto. }
  assert (Hnd0 : NoDup (map name (found st0))).
  { destruct Hst0 as [->|[e ->]]; [constructor|apply NoDup_singleton]. }
  repeat split.
  - auto.
  - rewrite Hfound, List.filter_app, (filter_isLocal_nil added Hloc), app_nil_r.
    destruct Hst0 as [->|[e ->]]; cbn; [lia|]. destruct (isLocal e); cbn; lia.
  - intros dir node st.
    destruct (scanNodeModules_extends node dir st) as (a & Ha & _). eauto.
  - intros tj Hex Hread Hne. rewrite Hread, Hex in Hl.
    assert (nonEmpty (tj_name tj) = true) as Hne'.
    { unfold nonEmpty. apply negb_true_iff, String.eqb_neq, Hne. }
    rewrite Hne' in Hl. cbn in Hl.
    exists added. rewrite Hfound, Hl. split; [done|]. split; [done|].
    specialize (Hnd Hnd0). rewrite Hfound, Hl in Hnd. cbn in Hnd.
    by apply NoDup_cons in Hnd as [Hnot _].
Qed.

Lemma discoverExtensions_invariant_witness :
  exists rest,
    discoverExtensions "/r" Ex.clashRoot
    = mkTitanExtension "app" "/r" (Ex.tj "app") true :: rest
    /\ Forall (fun e => isLocal e = false) rest
    /\ "app" ∉ map name rest.
Proof.
  destruct (discoverExtensions_invariant "/r" Ex.clashRoot) as (_ & _ & _ & H).
  apply (H (Ex.tj "app")); [reflexivity|reflexivity|discriminate].
Defined.

(** ** Dependency sorting *)

Local Set Warnings "-clear-no-such-hyp".

Section SortProofs.
Variable readPackage : string -> option PackageJson.
Variable extensions : list TitanExtension.

Local Abbreviation names := (map name extensions).
Local Abbreviation N := (list_to_set (map name extensions) : gset string).
Local Abbreviation depNames := (depNames readPackage).
Local Abbreviation Inv := (Inv extensions).
Local Abbreviation ordered := (ordered readPackage extensions).
Local Abbreviation edge := (edge readPackage extensions).
Local Abbreviation Post := (Post extensions).

Lemma byName_Some (n : string) (e : TitanExtension) :
  byName extensions n = Some e -> e ∈ extensions /\ name e = n.
Proof.
  unfold byName. intros H. apply find_some in H as [Hin Heq].
  apply String.eqb_eq in Heq. split; [|done].
  apply list_elem_of_In. by apply in_rev.
Qed.

Lemma byName_None (n : string) :
  byName extensions n = None -> n ∉ names.
Proof.
  unfold byName. intros H Hin.
  apply list_elem_of_In, in_map_iff in Hin as (e & <- & He).
  pose proof (find_none _ _ H e) as Hf. cbn in Hf.
  rewrite String.eqb_refl in Hf. apply in_rev in He. by specialize (Hf He).
Qed.

Lemma name_inj (x y : TitanExtension) :
  NoDup names -> x ∈ extensions -> y ∈ extensions -> name x = name y -> x = y.
Proof.
  intros Hnd Hx Hy Heq.
  apply list_elem_of_lookup in Hx as [i Hi].
  apply list_elem_of_lookup in Hy as [j Hj].
  assert (i = j) as ->.
  { eapply NoDup_lookup; [exact Hnd| |].
    - rewrite list_lookup_fmap, Hi. reflexivity.
    - rewrite list_lookup_fmap, Hj. cbn. by rewrite Heq. }
  congruence.
Qed.

Lemma Inv_push (ext : TitanExtension) (st2 : SState) :
  Inv st2 -> ext ∈ extensions -> name ext ∈ visiting st2 ->
  Inv (mkSState (visiting st2 ∖ {[name ext]}) ({[name ext]} ∪ visited st2)
         (sorted st2 ++ [ext])).
Proof.
  intros [Hv Hnd Hin Hd] He Hvis. split; cbn.
  - rewrite map_app, list_to_set_app_L, <- Hv. cbn. set_solver.
  - rewrite map_app. cbn. apply NoDup_app. split; [done|].
    split; [|apply NoDup_singleton].
    intros x Hx Hx'. apply list_elem_of_singleton in Hx'. subst.
    assert (name ext ∈ visited st2) by (rewrite Hv; set_solver).
    set_solver.
  - intros e [H| ->%list_elem_of_singleton]%elem_of_app; auto.
  - set_solver.
Qed.


Lemma Post_refl (ext : TitanExtension) (st : SState) :
  Inv st -> name ext ∈ visiting st \/ name ext ∈ visited st -> Post ext st st.
Proof. intros HI Hd. by split. Qed.

Lemma measure_step (x : string) (V : gset string) (f : nat) :
  x ∈ names -> x ∉ V -> size (N ∖ V) < S f -> size (N ∖ ({[x]} ∪ V)) < f.
Proof.
  intros Hx HV Hlt.
  assert (N ∖ ({[x]} ∪ V) ⊂ N ∖ V) as Hsub%subset_size; [|lia].
  assert (x ∈ N) by (by apply elem_of_list_to_set).
  set_solver.
Qed.

(** [visit] returns when the fuel exceeds the number of discovered names
    not being visited, and keeps the bookkeeping. *)
Lemma visit_spec (fuel : nat) :
  forall ext st,
    ext ∈ extensions -> Inv st -> size (N ∖ visiting st) < fuel ->
    exists st', (visit readPackage extensions) fuel ext st = Some st' /\ Post ext st st'.
Proof.
  induction fuel as [|f IH]; intros ext st Hext HI Hfuel; [lia|].
  cbn [visit].
  destruct (decide (name ext ∈ visited st)) as [Hv|Hv].
  { exists st. split; [done|]. apply Post_refl; auto. }
  destruct (decide (name ext ∈ visiting st)) as [Hg|Hg].
  { exists st. split; [done|]. apply Post_refl; auto. }
  set (step := fun depName s =>
                 match byName extensions depName with
                 | Some dep => (visit readPackage extensions) f dep s
                 | None => Some s
                 end).
  assert (Hloop : forall deps s,
    Inv s -> visiting s = {[name ext]} ∪ visiting st ->
    exists s', foldM step deps s = Some s' /\ Inv s'
               /\ visiting s' = visiting s /\ visited s ⊆ visited s'
               /\ sorted s `prefix_of` sorted s').
  { induction deps as [|d deps IHd]; intros s Hs Hvs.
    - exists s. split_and!; done.
    - cbn [foldM]. unfold step at 1.
      destruct (byName extensions d) as [dep|] eqn:Hd.
      + apply byName_Some in Hd as [Hdep _].
        destruct (IH dep s Hdep Hs) as (s1 & -> & [H1 H2 H3 H4 _]).
        { rewrite Hvs. apply measure_step; [|done|done].
          apply list_elem_of_In, in_map. by apply list_elem_of_In. }
        destruct (IHd s1 H1) as (s' & -> & H1' & H2' & H3' & H4');
          [congruence|].
        exists s'. split_and!; [done|done|congruence|set_solver|by etrans].
      + apply (IHd s Hs Hvs). }
  destruct (Hloop (depNames ext)
              (mkSState ({[name ext]} ∪ visiting st) (visited st) (sorted st)))
    as (st2 & Hfold & H1 & H2 & H3 & H4).
  { destruct HI as [? ? ? ?]. split; cbn; [done|done|done|set_solver]. }
  { done. }
  fold step. rewrite Hfold. eexists. split; [reflexivity|].
  cbn in H2, H3, H4.
  split; cbn.
  - apply Inv_push; [done|done|]. rewrite H2. set_solver.
  - rewrite H2. set_solver.
  - set_solver.
  - by apply prefix_app_r.
  - right. set_solver.
Qed.


Lemma size_N : NoDup names -> size N = length extensions.
Proof. intros H. rewrite size_list_to_set by done. apply length_map. Qed.

(** The loop over the roots, with any further property [Q] that one
    top-level call of [visit] keeps. *)
Lemma roots_spec (Q : SState -> Prop) (fuel : nat) :
  (forall ext st st',
      ext ∈ extensions -> Inv st -> visiting st = ∅ -> Q st ->
      visit readPackage extensions fuel ext st = Some st' -> Q st') ->
  size N < fuel ->
  forall roots st,
    Forall (fun r => r ∈ extensions) roots ->
    Inv st -> visiting st = ∅ -> Q st ->
    exists st',
      foldM (visit readPackage extensions fuel) roots st = Some st'
      /\ Inv st' /\ visiting st' = ∅ /\ Q st'
      /\ visited st ⊆ visited st'
      /\ Forall (fun r => name r ∈ visited st') roots.
Proof.
  intros HQ Hfuel roots. induction roots as [|r roots IH];
    intros st Hroots HI Hvis Hq.
  - exists st. split_and!; done.
  - apply Forall_cons in Hroots as [Hr Hroots]. cbn [foldM].
    destruct (visit_spec fuel r st Hr HI) as (s1 & Hs1 & [H1 H2 H3 H4 H5]).
    { rewrite Hvis. by replace (N ∖ ∅) with N by set_solver. }
    rewrite Hs1.
    destruct (IH s1 Hroots H1) as (st' & -> & G1 & G2 & G3 & G4 & G5);
      [congruence|by apply (HQ r st s1)|].
    exists st'. split_and!; try done; [set_solver|].
    constructor; [|done]. rewrite Hvis in H5. set_solver.
Qed.

Lemma find_head_filter (p : TitanExtension -> bool) (l : list TitanExtension) :
  find p l = head (List.filter p l).
Proof. induction l as [|x l IH]; [done|]. cbn. by destruct (p x). Qed.

Lemma Inv_init : Inv (mkSState ∅ ∅ []).
Proof. split; cbn; [done|constructor|set_solver|set_solver]. Qed.

Lemma sortWith_spec (Q : SState -> Prop) (fuel : nat) :
  (forall ext st st',
      ext ∈ extensions -> Inv st -> visiting st = ∅ -> Q st ->
      visit readPackage extensions fuel ext st = Some st' -> Q st') ->
  Q (mkSState ∅ ∅ []) ->
  discovered extensions ->
  size N < fuel ->
  exists st,
    sortWith readPackage fuel extensions = Some (sorted st)
    /\ Inv st /\ Q st /\ visited st = N.
Proof.
  intros HQ Hq0 [Hnd Hone] Hfuel. unfold sortWith.
  destruct (roots_spec Q fuel HQ Hfuel
              (List.filter (fun e => negb (isLocal e)) extensions)
              (mkSState ∅ ∅ []))
    as (s1 & -> & H1 & H2 & H3 & _ & H5); try done.
  { apply Forall_forall. intros x Hx%list_elem_of_In%filter_In.
    apply list_elem_of_In. tauto. }
  { apply Inv_init. }
  rewrite Forall_forall in H5.
  assert (Hnames : forall s, Inv s -> visited s ⊆ N).
  { intros s [Hv _ Hin _] n. rewrite Hv, !elem_of_list_to_set.
    intros (e & -> & He)%list_elem_of_fmap.
    apply list_elem_of_fmap. eauto. }
  rewrite find_head_filter.
  destruct (List.filter isLocal extensions) as [|l [|l' rest]] eqn:Hf;
    cbn in Hone; [| |lia]; cbn [head].
  - exists s1. split_and!; try done.
    apply set_eq. intros n. split; [apply Hnames, H1|].
    rewrite elem_of_list_to_set.
    intros (e & -> & He)%list_elem_of_fmap.
    apply H5, list_elem_of_In, filter_In. split; [by apply list_elem_of_In|].
    destruct (isLocal e) eqn:Hl; [|done].
    assert (In e (List.filter isLocal extensions)) as Hin.
    { apply filter_In. split; [by apply list_elem_of_In|done]. }
    rewrite Hf in Hin. destruct Hin.
  - assert (Hl : l ∈ extensions /\ isLocal l = true).
    { assert (In l (List.filter isLocal extensions)) as Hin
        by (rewrite Hf; by left).
      apply filter_In in Hin as [? ?]. split; [by apply list_elem_of_In|done]. }
    destruct Hl as [Hl Hloc].
    destruct (visit_spec fuel l s1 Hl H1) as (s2 & Hs2 & [G1 G2 G3 G4 G5]).
    { rewrite H2. by replace (N ∖ ∅) with N by set_solver. }
    rewrite Hs2. cbn. exists s2. split_and!; try done.
    { by apply (HQ l s1 s2). }
    apply set_eq. intros n. split; [apply Hnames, G1|].
    rewrite elem_of_list_to_set.
    intros (e & -> & He)%list_elem_of_fmap.
    destruct (isLocal e) eqn:Hle.
    + assert (In e (List.filter isLocal extensions)) as Hin.
      { apply filter_In. split; [by apply list_elem_of_In|done]. }
      rewrite Hf in Hin. destruct Hin as [<-|[]].
      rewrite H2 in G5. set_solver.
    + apply G3, H5, list_elem_of_In, filter_In.
      split; [by apply list_elem_of_In|]. by rewrite Hle.
Qed.

(** Once every name is visited, the emitted sequence is a rearrangement of
    the discovered one. *)
Lemma sorted_Permutation (st : SState) :
  NoDup names -> Inv st -> visited st = N -> sorted st ≡ₚ extensions.
Proof.
  intros Hnd [Hv Hnd' Hin _] HN.
  apply NoDup_Permutation.
  - by apply NoDup_fmap_1 in Hnd'.
  - by apply NoDup_fmap_1 in Hnd.
  - intros x. split; [apply Hin|]. intros Hx.
    assert (name x ∈ visited st) as Hvx.
    { rewrite HN. apply elem_of_list_to_set, list_elem_of_fmap. eauto. }
    rewrite Hv in Hvx.
    apply elem_of_list_to_set, list_elem_of_fmap in Hvx as (y & Heq & Hy).
    by rewrite (name_inj x y Hnd Hx (Hin y Hy) Heq).
Qed.


Lemma ordered_nil : ordered [].
Proof. intros l1 x l2 H. by destruct l1. Qed.

Lemma ordered_snoc (l : list TitanExtension) (x : TitanExtension) :
  ordered l ->
  (forall d, d ∈ depNames x -> d ∈ names -> d ∈ map name l) ->
  ordered (l ++ [x]).
Proof.
  intros Hl Hx l1 y l2 Heq d Hd Hn.
  destruct l2 as [|z l2 _] using rev_ind.
  - apply app_inj_tail in Heq as [-> ->]. by apply Hx.
  - rewrite app_comm_cons, app_assoc in Heq.
    apply app_inj_tail in Heq as [-> ->]. by apply (Hl l1 y l2).
Qed.

(** With no cycle among the dependencies, [visit] finishes its argument
    and keeps every emitted extension after what it depends on. *)
Lemma visit_ordered (fuel : nat) :
  acyclic readPackage extensions ->
  forall ext st st',
    ext ∈ extensions -> Inv st -> size (N ∖ visiting st) < fuel ->
    (forall v, v ∈ visiting st -> tc edge v (name ext)) ->
    ordered (sorted st) ->
    visit readPackage extensions fuel ext st = Some st' ->
    ordered (sorted st') /\ name ext ∈ visited st'.
Proof.
  intros Hacyc.
  induction fuel as [|f IH]; intros ext st st' Hext HI Hfuel Hpath Hord;
    [lia|].
  cbn [visit].
  destruct (decide (name ext ∈ visited st)) as [Hv|Hv].
  { by intros [= <-]. }
  destruct (decide (name ext ∈ visiting st)) as [Hg|Hg].
  { destruct (Hacyc (name ext)). by apply Hpath. }
  set (step := fun depName s =>
                 match byName extensions depName with
                 | Some dep => (visit readPackage extensions) f dep s
                 | None => Some s
                 end).
  assert (Hloop : forall deps s s',
    (forall d, d ∈ deps -> d ∈ depNames ext) ->
    Inv s -> visiting s = {[name ext]} ∪ visiting st ->
    ordered (sorted s) ->
    foldM step deps s = Some s' ->
    ordered (sorted s') /\ visited s ⊆ visited s'
    /\ visiting s' = visiting s
    /\ (forall d, d ∈ deps -> d ∈ names -> d ∈ visited s')).
  { induction deps as [|d deps IHd]; intros s s' Hsub Hs Hvs Hos.
    - cbn. intros [= <-]. split_and!; try done. set_solver.
    - cbn [foldM]. unfold step at 1.
      assert (Hf : size (N ∖ visiting s) < f).
      { rewrite Hvs. apply measure_step; [|done|done].
        apply list_elem_of_In, in_map. by apply list_elem_of_In. }
      destruct (byName extensions d) as [dep|] eqn:Hd.
      + apply byName_Some in Hd as [Hdep Hname].
        destruct (visit_spec f dep s Hdep Hs Hf) as (s1 & Hs1 & [H1 H2 H3 H4 _]).
        rewrite Hs1. intros Hrest.
        destruct (IH dep s s1 Hdep Hs Hf) as [Ho1 Hd1]; try done.
        { intros v Hvin.
          assert (edge (name ext) (name dep)) as He.
          { exists ext. split_and!; try done.
            - apply Hsub. rewrite Hname. set_solver.
            - apply list_elem_of_fmap. eauto. }
          rewrite Hvs in Hvin. apply elem_of_union in Hvin as [->%elem_of_singleton|Hvin].
          - by apply tc_once.
          - eapply tc_r; [by apply Hpath|done]. }
        destruct (IHd s1 s') as (G1 & G2 & G3 & G4); try done.
        { intros d' Hd'. apply Hsub. set_solver. }
        { congruence. }
        split_and!; [done|set_solver|congruence|].
        intros d' [->|Hd']%elem_of_cons Hn; [|by apply G4].
        apply G2. by rewrite <- Hname.
      + intros Hrest. apply byName_None in Hd.
        destruct (IHd s s') as (G1 & G2 & G3 & G4); try done.
        { intros d' Hd'. apply Hsub. set_solver. }
        split_and!; try done.
        intros d' [->|Hd']%elem_of_cons Hn; [done|by apply G4]. }
  fold step.
  destruct (foldM step (depNames ext) _) as [st2|] eqn:Hfold; [|done].
  intros [= <-]. cbn.
  pose proof HI as [Hi1 Hi2 Hi3 Hi4].
  destruct (visit_spec (S f) ext st Hext HI Hfuel) as (st'' & Hst'' & [P1 _ _ _ _]).
  cbn [visit] in Hst''.
  rewrite decide_False, decide_False in Hst'' by done.
  fold step in Hst''. rewrite Hfold in Hst''. injection Hst'' as <-.
  destruct P1 as [Q1 _ _ _]. cbn in Q1.
  apply Hloop in Hfold as (G1 & G2 & G3 & G4); try done.
  - split; [|set_solver].
    apply ordered_snoc; [done|].
    intros d Hd Hn. specialize (G4 d Hd Hn).
    rewrite map_app, list_to_set_app_L in Q1. cbn in Q1.
    assert (d <> name ext) as Hne.
    { intros ->. destruct (Hacyc (name ext)). apply tc_once.
      exists ext. by split_and!. }
    assert (d ∈ {[name ext]} ∪ visited st2) as Hin
      by (apply elem_of_union; by right).
    rewrite Q1 in Hin. apply elem_of_union in Hin as [Hin|Hin].
    + by apply elem_of_list_to_set in Hin.
    + apply elem_of_union in Hin as [Hin%elem_of_singleton|Hin%elem_of_empty];
        done.
  - split; cbn; [done|done|done|set_solver].
Qed.

End SortProofs.

Lemma sortFuel_enough (extensions : list TitanExtension) :
  NoDup (map name extensions) ->
  size (list_to_set (map name extensions) : gset string) < sortFuel extensions.
Proof. intros H. rewrite size_N by done. unfold sortFuel. lia. Qed.

(** C5: on a discovered set, cyclic or not, the sort returns, and what it
    returns is a rearrangement of its input; a call of [visit] on a node
    that is being visited returns at once and changes nothing. *)
Theorem sortByDependencies_permutation
    (readPackage : string -> option PackageJson)
    (extensions : list TitanExtension) :
  discovered extensions ->
  (exists l, sortByDependencies readPackage extensions = Some l
             /\ l ≡ₚ extensions)
  /\ (forall f ext st,
        name ext ∈ visiting st ->
        visit readPackage extensions (S f) ext st = Some st).
Proof.
  intros Hdisc. split.
  - destruct (sortWith_spec readPackage extensions (fun _ => True)
                (sortFuel extensions)) as (st & Hs & HI & _ & HN); try done.
    { apply sortFuel_enough, Hdisc. }
    exists (sorted st). split; [exact Hs|].
    apply sorted_Permutation; [apply Hdisc|done|done].
  - intros f ext st Hin. cbn [visit].
    destruct (decide (name ext ∈ visited st)); [done|].
    by rewrite decide_True.
Qed.

Lemma cycle_discovered : discovered [Ex.cycA; Ex.cycB].
Proof.
  split; [|cbn; lia].
  cbn. apply NoDup_cons. split; [|apply NoDup_singleton].
  intros H%list_elem_of_singleton. discriminate.
Qed.

Lemma sortByDependencies_permutation_witness :
  exists l, sortByDependencies Ex.cyclePackages [Ex.cycA; Ex.cycB] = Some l
            /\ l ≡ₚ [Ex.cycA; Ex.cycB].
Proof.
  exact (proj1 (sortByDependencies_permutation Ex.cyclePackages
                  [Ex.cycA; Ex.cycB] cycle_discovered)).
Defined.

(** The order the code gives the cycle: [b] is reached from [a], meets [a]
    being visited, and is emitted first. *)
Example sort_cycle :
  sortByDependencies Ex.cyclePackages [Ex.cycA; Ex.cycB]
  = Some [Ex.cycB; Ex.cycA].
Proof. vm_compute. reflexivity. Qed.

(** C6: on a discovered set without dependency cycles, the sort returns a
    sequence in which every extension comes after each discovered extension
    named among its merged dependency keys. *)
Theorem sortByDependencies_dependency_first
    (readPackage : string -> option PackageJson)
    (extensions : list TitanExtension) (A B : TitanExtension) :
  discovered extensions ->
  acyclic readPackage extensions ->
  A ∈ extensions -> B ∈ extensions ->
  name B ∈ depNames readPackage A ->
  exists l, sortByDependencies readPackage extensions = Some l
            /\ precedes B A l.
Proof.
  intros Hdisc Hacyc HA HB Hdep.
  destruct (sortWith_spec readPackage extensions
              (fun st => ordered readPackage extensions (sorted st))
              (sortFuel extensions)) as (st & Hs & HI & Hord & HN).
  { intros ext st st' Hext HI Hvis Hord Hvisit.
    apply (visit_ordered readPackage extensions (sortFuel extensions) Hacyc
             ext st st' Hext HI); [| |done|done].
    - rewrite Hvis. replace (list_to_set (map name extensions) ∖ ∅)
        with (list_to_set (map name extensions) : gset string) by set_solver.
      apply sortFuel_enough, Hdisc.
    - intros v Hv. rewrite Hvis in Hv. set_solver. }
  { apply ordered_nil. }
  { done. }
  { apply sortFuel_enough, Hdisc. }
  exists (sorted st). split; [exact Hs|].
  pose proof (sorted_Permutation extensions st (proj1 Hdisc) HI HN) as Hperm.
  assert (A ∈ sorted st) as HAin by (by rewrite Hperm).
  apply list_elem_of_split in HAin as (l1 & l3 & Heq).
  assert (name B ∈ map name l1) as HBn.
  { apply (Hord l1 A l3 Heq); [done|]. apply list_elem_of_fmap. eauto. }
  apply list_elem_of_fmap in HBn as (B' & Hname & HB').
  assert (B' ∈ extensions) as HB'ext.
  { rewrite <- Hperm, Heq. set_solver. }
  rewrite (name_inj extensions B B' (proj1 Hdisc) HB HB'ext Hname).
  apply list_elem_of_split in HB' as (l1' & l2 & ->).
  exists l1', l2, l3. rewrite Heq. by rewrite <- app_assoc.
Qed.

Lemma app_core_acyclic : acyclic Ex.appPackages [Ex.app; Ex.core].
Proof.
  assert (Hedge : forall a b, edge Ex.appPackages [Ex.app; Ex.core] a b ->
                              a = "app" /\ b = "core").
  { intros a b (x & Hx & <- & Hb & Hn).
    apply elem_of_cons in Hx as [->|Hx];
      [|apply list_elem_of_singleton in Hx as ->]; vm_compute in Hb.
    - split; [done|]. cbn in Hn. set_solver.
    - by apply elem_of_nil in Hb. }
  intros n Hn.
  inversion Hn as [x y H|x y z H Hyz]; subst.
  - apply Hedge in H as [-> H]. discriminate.
  - apply Hedge in H as [-> ->].
    inversion Hyz as [x y H|x y z H _]; subst;
      apply Hedge in H as [H _]; discriminate.
Qed.

Lemma app_core_discovered : discovered [Ex.app; Ex.core].
Proof.
  split; [|cbn; lia].
  cbn. apply NoDup_cons. split; [|apply NoDup_singleton].
  intros H%list_elem_of_singleton. discriminate.
Qed.

Lemma sortByDependencies_dependency_first_witness :
  exists l, sortByDependencies Ex.appPackages [Ex.app; Ex.core] = Some l
            /\ precedes Ex.core Ex.app l.
Proof.
  apply (sortByDependencies_dependency_first Ex.appPackages
           [Ex.app; Ex.core] Ex.app Ex.core
           app_core_discovered app_core_acyclic).
  - set_solver.
  - set_solver.
  - vm_compute. set_solver.
Defined.

(** C1 at a dependency that names the project: [core] lists [app] among its
    dependencies, so the visit of [core] emits the local [app] first. *)
Theorem local_not_last :
  sortByDependencies Ex.corePackage [Ex.app; Ex.core]
  = Some [Ex.app; Ex.core]
  /\ isLocal Ex.app = true /\ isLocal Ex.core = false.
Proof. vm_compute. auto. Qed.

(** ** The object store *)

Lemma chainFuel_S (h : Js.Heap) : Js.chainFuel h = S (size h).
Proof. reflexivity. Qed.

Lemma get_own (h : Js.Heap) (l : Js.loc) (k : string) (v : Js.Val) :
  Js.own h l k = Some v -> Js.get h l k = v.
Proof.
  unfold Js.own, Js.get. rewrite chainFuel_S. cbn [Js.lookupChain].
  destruct (h !! l) as [o|]; [|done]. by intros ->.
Qed.

Lemma own_setOwn_eq (h : Js.Heap) (l : Js.loc) (k : string) (v : Js.Val) :
  is_Some (h !! l) -> Js.own (Js.setOwn h l k v) l k = Some v.
Proof.
  intros [o Ho]. unfold Js.own, Js.setOwn. rewrite Ho.
  rewrite lookup_insert_eq. cbn. apply lookup_insert_eq.
Qed.

Lemma own_setOwn_ne (h : Js.Heap) (l l' : Js.loc) (k k' : string) (v : Js.Val) :
  l <> l' \/ k <> k' ->
  Js.own (Js.setOwn h l k v) l' k' = Js.own h l' k'.
Proof.
  intros Hne. unfold Js.own, Js.setOwn.
  destruct (h !! l) as [o|] eqn:Ho; [|done].
  destruct (decide (l = l')) as [<-|Hl].
  - rewrite lookup_insert_eq, Ho. cbn. apply lookup_insert_ne. naive_solver.
  - by rewrite lookup_insert_ne.
Qed.

Lemma lookup_setOwn_ne (h : Js.Heap) (l l' : Js.loc) (k : string) (v : Js.Val) :
  l <> l' -> Js.setOwn h l k v !! l' = h !! l'.
Proof.
  intros Hne. unfold Js.setOwn. destruct (h !! l); [|done].
  by rewrite lookup_insert_ne.
Qed.

Lemma setOwn_is_Some (h : Js.Heap) (l l' : Js.loc) (k : string) (v : Js.Val) :
  is_Some (h !! l') -> is_Some (Js.setOwn h l k v !! l').
Proof.
  intros H. unfold Js.setOwn. destruct (h !! l) as [o|] eqn:Ho; [|done].
  destruct (decide (l = l')) as [<-|Hl].
  - rewrite lookup_insert_eq. eauto.
  - by rewrite lookup_insert_ne.
Qed.

(** Any key but [__proto__] is written as an own data property. *)
Lemma set_data (h : Js.Heap) (l : Js.loc) (k : string) (v : Js.Val) :
  k <> "__proto__" -> Js.set h l k v = Some (Js.setOwn h l k v).
Proof.
  intros Hk. unfold Js.set.
  destruct (Js.lookupChain _ h l k); [done|]. by rewrite decide_False.
Qed.

Lemma alloc_fresh (h : Js.Heap) (ps : list (string * Js.Val)) :
  h !! (Js.alloc h ps).1 = None.
Proof. cbn. apply not_elem_of_dom, is_fresh. Qed.

Lemma alloc_lookup_ne (h : Js.Heap) (ps : list (string * Js.Val)) (l : Js.loc) :
  is_Some (h !! l) -> (Js.alloc h ps).2 !! l = h !! l.
Proof.
  intros [o Ho]. cbn. rewrite lookup_insert_ne; [done|].
  intros Heq. pose proof (alloc_fresh h ps) as Hf. cbn in Hf.
  rewrite Heq in Hf. congruence.
Qed.

Lemma alloc_own (h : Js.Heap) (ps : list (string * Js.Val)) (l : Js.loc)
    (k : string) :
  is_Some (h !! l) -> Js.own (Js.alloc h ps).2 l k = Js.own h l k.
Proof. intros H. unfold Js.own. by rewrite alloc_lookup_ne. Qed.

Lemma reaches_objProto_stop (h : Js.Heap) (op : Js.Obj) (x : Js.loc) (n : nat) :
  h !! Js.objProto = Some op -> Js.proto op = None -> x <> Js.objProto ->
  Js.reaches n h Js.objProto x = false.
Proof.
  intros Hop Hp Hx. destruct n as [|n]; [done|]. cbn.
  rewrite decide_False by done. by rewrite Hop, Hp.
Qed.

Lemma wfNamespace_setOwn (h : Js.Heap) (t : Js.loc) (k : string) (v : Js.Val) :
  wfNamespace h t -> wfNamespace (Js.setOwn h t k v) t.
Proof.
  intros (Ht & Hne & op & Hop & Hp & Hk). split_and!; [|done|].
  - by apply setOwn_is_Some.
  - exists op. by rewrite lookup_setOwn_ne.
Qed.

Lemma wfNamespace_alloc (h : Js.Heap) (t : Js.loc) (ps : list (string * Js.Val)) :
  wfNamespace h t -> wfNamespace (Js.alloc h ps).2 t.
Proof.
  intros (Ht & Hne & op & Hop & Hp & Hk). split_and!; [|done|].
  - by rewrite alloc_lookup_ne.
  - exists op. by rewrite alloc_lookup_ne.
Qed.

Lemma frame_refl (l : Js.loc) (k : string) (h : Js.Heap) : frame l k h h.
Proof. by split. Qed.

Lemma frame_setOwn (l : Js.loc) (k : string) (v : Js.Val) (h : Js.Heap) :
  frame l k h (Js.setOwn h l k v).
Proof.
  split.
  - intros l' k' Hne _. apply own_setOwn_ne. naive_solver.
  - intros l'. apply setOwn_is_Some.
Qed.

Lemma frame_alloc (l : Js.loc) (k : string) (ps : list (string * Js.Val))
    (h : Js.Heap) :
  frame l k h (Js.alloc h ps).2.
Proof.
  split.
  - intros l' k' _ Hl'. by apply alloc_own.
  - intros l' Hl'. by rewrite alloc_lookup_ne.
Qed.

(** A write touches at most the own property it names. *)
Lemma frame_set (l : Js.loc) (k : string) (v : Js.Val) (h h' : Js.Heap) :
  Js.set h l k v = Some h' -> frame l k h h'.
Proof.
  unfold Js.set.
  destruct (Js.lookupChain _ h l k); [intros [= <-]; apply frame_setOwn|].
  destruct (decide (k = "__proto__")); [|intros [= <-]; apply frame_setOwn].
  destruct (Js.reaches _ h l Js.objProto); [|intros [= <-]; apply frame_setOwn].
  unfold Js.setProto. destruct v as [|s|p]; try (intros [= <-]; apply frame_refl).
  destruct (h !! l) as [o|] eqn:Ho; [|done].
  destruct (decide (Js.proto o = Some p)); [intros [= <-]; apply frame_refl|].
  destruct (decide (l = Js.objProto)); [done|].
  destruct (Js.reaches _ h p l); [done|]. intros [= <-]. split.
  - intros l' k' _ _. unfold Js.own.
    destruct (decide (l = l')) as [<-|Hl].
    + by rewrite lookup_insert_eq, Ho.
    + by rewrite lookup_insert_ne.
  - intros l' Hl'. destruct (decide (l = l')) as [<-|Hl].
    + rewrite lookup_insert_eq. eauto.
    + by rewrite lookup_insert_ne.
Qed.

Lemma frame_trans (l : Js.loc) (k : string) (a b c : Js.Heap) :
  frame l k a b -> frame l k b c -> frame l k a c.
Proof.
  intros [F1 D1] [F2 D2]. split.
  - intros l' k' Hne Hl'. rewrite F2, F1; auto.
  - auto.
Qed.

Section LoadProofs.
Variable existsSync : string -> bool.
Variable koffiLoad : string -> Res Lib.
Variable libFunc : Lib -> string -> Js.Val -> list Js.Val -> Res unit.
Variable importModule : string -> Js.Heap -> Js.Heap * Res unit.
Variable t : Js.loc.


(** [t[name] = t[name] || {}] does not throw on a namespace: afterwards
    [t[name]] is the truthy value it was, or else a new empty object. *)
Lemma initNamespace_spec (nm : string) (st : AState) :
  wfNamespace (heap st) t ->
  let v := Js.get (heap st) t nm in
  let l := fresh (dom (heap st)) in
  exists h',
    initNamespace t nm st = Some (withHeap h' st)
    /\ wfNamespace h' t
    /\ Js.get h' t nm = (if Js.truthy v then v else Js.VRef l)
    /\ (Js.truthy v = false ->
        h' !! l = Some (Js.mkObj ∅ (Some Js.objProto))).
Proof.
  intros Hwf v l. unfold initNamespace. fold v.
  pose proof Hwf as ([o Ho] & Hne & op & Hop & Hp & Hk).
  destruct (Js.truthy v) eqn:Htr.
  - (* the value is kept *)
    unfold Js.set. unfold v, Js.get in Htr.
    destruct (Js.lookupChain (Js.chainFuel (heap st)) (heap st) t nm)
      as [v0|] eqn:Hch.
    + eexists. split; [reflexivity|]. split; [by apply wfNamespace_setOwn|].
      split; [|done]. apply get_own, own_setOwn_eq. eauto.
    + destruct (decide (nm = "__proto__")) as [->|?]; [|done].
      destruct (Js.reaches _ (heap st) t Js.objProto) eqn:Hr; [|done].
      unfold Js.protoVal in Htr. rewrite Ho in Htr.
      destruct (Js.proto o) as [p|] eqn:Hpo; [|done].
      assert (v = Js.VRef p) as Hv.
      { unfold v, Js.get. rewrite Hch, Hr. cbn. unfold Js.protoVal.
        by rewrite Ho, Hpo. }
      rewrite Hv. cbn. rewrite Ho. rewrite decide_True by done. cbn.
      exists (heap st). split; [done|]. split; [done|]. split; [|done].
      by rewrite <- Hv.
  - (* a new bag *)
    cbn [Js.alloc]. fold l. cbn [list_to_map foldr].
    set (h1 := <[l := Js.mkObj ∅ (Some Js.objProto)]> (heap st)).
    assert (Hl : heap st !! l = None) by apply not_elem_of_dom, is_fresh.
    assert (Hlt : l <> t) by (intros E; rewrite E in Hl; congruence).
    assert (Hlo : l <> Js.objProto) by (intros E; rewrite E in Hl; congruence).
    assert (Ht1 : h1 !! t = Some o) by (unfold h1; by rewrite lookup_insert_ne).
    assert (Hop1 : h1 !! Js.objProto = Some op)
      by (unfold h1; by rewrite lookup_insert_ne).
    assert (Hl1 : h1 !! l = Some (Js.mkObj ∅ (Some Js.objProto)))
      by (unfold h1; by rewrite lookup_insert_eq).
    assert (Hwf1 : wfNamespace h1 t).
    { split_and!; [by rewrite Ht1|done|by exists op]. }
    assert (Hown : exists h',
      Some (withHeap (Js.setOwn h1 t nm (Js.VRef l)) st) = Some (withHeap h' st)
      /\ wfNamespace h' t /\ Js.get h' t nm = Js.VRef l
      /\ (true = true -> h' !! l = Some (Js.mkObj ∅ (Some Js.objProto)))).
    { eexists. split; [reflexivity|]. split; [by apply wfNamespace_setOwn|].
      split; [apply get_own, own_setOwn_eq; by rewrite Ht1|].
      intros _. by rewrite lookup_setOwn_ne. }
    destruct Hown as (h' & Heq & G1 & G2 & G3).
    unfold Js.set.
    destruct (Js.lookupChain (Js.chainFuel h1) h1 t nm) as [v0|] eqn:Hch.
    { exists h'. cbn. by rewrite Heq; auto. }
    destruct (decide (nm = "__proto__")) as [->|?];
      [|exists h'; cbn; by rewrite Heq; auto].
    destruct (Js.reaches (Js.chainFuel h1) h1 t Js.objProto) eqn:Hr;
      [|exists h'; cbn; by rewrite Heq; auto].
    clear h' Heq G1 G2 G3.
    assert (Hpk : Js.props o !! "__proto__" = None).
    { rewrite chainFuel_S in Hch. cbn [Js.lookupChain] in Hch.
      rewrite Ht1 in Hch. by destruct (Js.props o !! "__proto__"). }
    unfold Js.setProto. rewrite Ht1.
    destruct (decide (Js.proto o = Some l)) as [Hpl|Hpl].
    { exists h1. split; [done|]. split; [done|]. split; [|done].
      unfold Js.get. rewrite Hch, Hr. cbn. unfold Js.protoVal.
      by rewrite Ht1, Hpl. }
    rewrite decide_False by done.
    assert (Js.reaches (Js.chainFuel h1) h1 l t = false) as ->.
    { rewrite chainFuel_S. cbn [Js.reaches]. rewrite decide_False by done.
      rewrite Hl1. cbn. apply (reaches_objProto_stop h1 op); auto. }
    set (h2 := <[t := Js.mkObj (Js.props o) (Some l)]> h1).
    assert (Ht2 : h2 !! t = Some (Js.mkObj (Js.props o) (Some l)))
      by (unfold h2; by rewrite lookup_insert_eq).
    assert (Hl2 : h2 !! l = Some (Js.mkObj ∅ (Some Js.objProto)))
      by (unfold h2; by rewrite lookup_insert_ne).
    assert (Hop2 : h2 !! Js.objProto = Some op)
      by (unfold h2; by rewrite lookup_insert_ne).
    exists h2. split; [done|].
    split; [split_and!; [by rewrite Ht2|done|by exists op]|].
    split; [|done].
    assert (Hnone : forall n, Js.lookupChain n h2 t "__proto__" = None).
    { intros [|[|[|n]]]; cbn; try done;
        rewrite ?Ht2; cbn; rewrite ?Hpk, ?Hl2; cbn;
        rewrite ?lookup_empty, ?Hop2, ?Hk, ?Hp; done. }
    assert (Hsize : exists k, size h2 = S (S k)).
    { unfold h2. rewrite map_size_insert_Some by (by rewrite Ht1).
      unfold h1. rewrite map_size_insert_None by done.
      destruct (size (heap st)) as [|k] eqn:Hs; [|eauto].
      apply map_size_empty_inv in Hs. rewrite Hs in Ho. done. }
    destruct Hsize as [k Hk2].
    assert (Hreach : Js.reaches (S (S (S k))) h2 t Js.objProto = true).
    { cbn [Js.reaches]. rewrite (decide_False (P := t = Js.objProto)) by done.
      rewrite Ht2. cbn [Js.proto].
      rewrite (decide_False (P := l = Js.objProto)) by done.
      rewrite Hl2. cbn [Js.proto]. by rewrite decide_True. }
    unfold Js.get. rewrite Hnone, chainFuel_S, Hk2, Hreach.
    rewrite decide_True by done.
    unfold Js.protoVal. by rewrite Ht2.
Qed.


(** C7: a declared library that is not on disk costs one warning and
    nothing else; no call reaches the native service, the namespace entry
    is in place (a new empty object when there was none), and the entry
    module is the next step. *)
Theorem missing_library_degrades (ext : TitanExtension) (nat : Native)
    (st : AState) :
  wfNamespace (heap st) t ->
  native (titanJson ext) = Some nat ->
  native_path nat <> "" ->
  existsSync (resolveDllPath (native_path nat) (path ext)) = false ->
  exists st1,
    bindingPhase existsSync koffiLoad libFunc t ext st = Some st1
    /\ events st1
       = (events st
          ++ [ELog ("Loading: " ++ name ext ++ " "
                    ++ (if isLocal ext then "(local)" else ""));
              ELog ("Warning: DLL not found: "
                    ++ resolveDllPath (native_path nat) (path ext))])%list
    /\ loadedLibraries st1 = loadedLibraries st
    /\ Js.truthy (Js.get (heap st1) t (name ext)) = true
    /\ (Js.truthy (Js.get (heap st) t (name ext)) = false ->
        exists b, Js.get (heap st1) t (name ext) = Js.VRef b
                  /\ heap st1 !! b = Some (Js.mkObj ∅ (Some Js.objProto))
                  /\ heap st !! b = None)
    /\ (loadExtension existsSync koffiLoad libFunc importModule t) ext st = Some (loadMain existsSync importModule ext st1)
    /\ (existsSync (mainPath ext) = true ->
        EImport (mainPath ext) ∈ events (loadMain existsSync importModule ext st1))
    /\ (existsSync (mainPath ext) = false -> (loadMain existsSync importModule) ext st1 = st1).
Proof.
  intros Hwf Hnat Hpath Hmissing.
  unfold loadExtension, bindingPhase.
  set (st0 := emit _ st).
  destruct (initNamespace_spec (name ext) st0 Hwf) as (h' & Hinit & Hwf' & Hget & Hnew).
  cbn zeta in Hget, Hnew. rewrite Hinit. cbn [option_map].
  unfold loadNative. rewrite Hnat.
  assert (nonEmpty (native_path nat) = true) as ->
    by (apply negb_true_iff, String.eqb_neq, Hpath).
  rewrite Hmissing.
  eexists. split; [reflexivity|].
  split; [cbn; by rewrite <- app_assoc|].
  split; [done|]. cbn [heap emit withHeap].
  split.
  { rewrite Hget. change (heap st0) with (heap st).
    by destruct (Js.truthy (Js.get (heap st) t (name ext))) eqn:E. }
  split.
  { intros Hf. change (heap st0) with (heap st) in *. rewrite Hf in Hget.
    eexists. split; [exact Hget|]. split; [by apply Hnew|].
    apply not_elem_of_dom, is_fresh. }
  split; [done|]. split.
  - intros Hm. unfold loadMain. rewrite Hm.
    destruct (importModule _ _) as [h2 [u|e]]; cbn; set_solver.
  - intros Hm. unfold loadMain. by rewrite Hm.
Qed.



Lemma isBag_frame (nm : string) (b : Js.loc) (k : string) (h h' : Js.Heap) :
  isBag h t nm b -> frame b k h h' -> isBag h' t nm b.
Proof.
  intros (Hown & Hne & Hb) [F D]. split_and!; [|done|by apply D].
  rewrite F; [done|by left|].
  unfold Js.own in Hown. destruct (h !! t); [eauto|done].
Qed.

Lemma funcRequests_app (a b : list Event) :
  funcRequests (a ++ b) = (funcRequests a ++ funcRequests b)%list.
Proof. apply omap_app. Qed.

(** The inner [try]: the request is made; on failure the store is untouched
    and a warning is logged; on success the new function is written to the
    bag. *)
Lemma tryBind_spec (lib : Lib) (nm : string) (b : Js.loc) (g sym : string)
    (res : Js.Val) (params : list Js.Val) (st : AState) :
  isBag (heap st) t nm b ->
  let st' := tryBind libFunc t lib nm g sym res params st in
  frame b g (heap st) (heap st')
  /\ funcRequests (events st') = (funcRequests (events st) ++ [sym])%list
  /\ events st `prefix_of` events st'
  /\ loadedLibraries st' = loadedLibraries st
  /\ (forall e, libFunc lib sym res params = Err e ->
       heap st' = heap st
       /\ ELog ("Warning: Failed to load native function " ++ g ++ ": " ++ e)
          ∈ events st')
  /\ (libFunc lib sym res params = Ok tt ->
      g <> "__proto__" ->
      Js.own (heap st') b g = Some (Js.VRef (fresh (dom (heap st))))).
Proof.
  intros Hbag. pose proof Hbag as (Hown & Hne & Hb).
  cbn zeta. unfold tryBind.
  rewrite (get_own _ _ _ _ Hown).
  destruct (libFunc lib sym res params) as [u|e] eqn:Hcall.
  - cbn [Js.alloc heap emit Js.setV]. cbn [list_to_map foldr].
    set (f := fresh (dom (heap st))).
    set (h1 := <[f := _]> (heap st)).
    assert (Hf1 : frame b g (heap st) h1) by apply (frame_alloc b g []).
    destruct (Js.set h1 b g (Js.VRef f)) as [h2|] eqn:Hset.
    + cbn. split_and!.
      * eapply frame_trans; [exact Hf1|by eapply frame_set].
      * rewrite funcRequests_app. done.
      * by apply prefix_app_r.
      * done.
      * intros e He. congruence.
      * intros _ Hg. rewrite set_data in Hset by done. injection Hset as <-.
        apply own_setOwn_eq. by apply Hf1.
    + cbn. split_and!.
      * done.
      * rewrite !funcRequests_app. cbn. by rewrite app_nil_r.
      * rewrite <- app_assoc. by apply prefix_app_r.
      * done.
      * intros e He. congruence.
      * intros _ Hg. by rewrite set_data in Hset.
  - cbn. split_and!.
    + apply frame_refl.
    + rewrite !funcRequests_app. cbn. by rewrite app_nil_r.
    + rewrite <- app_assoc. by apply prefix_app_r.
    + done.
    + intros e' [= <-]. split; [done|]. set_solver.
    + intros Hok. congruence.
Qed.

(** One turn of the loop, whatever the declaration: it writes at most one
    key of the bag. *)
Lemma bindFunction_frame (lib : Lib) (nm : string) (b : Js.loc) (g : string)
    (def : NativeFunctionDef) (st : AState) :
  isBag (heap st) t nm b ->
  frame b g (heap st) (heap (bindFunction libFunc t lib nm (g, def) st).1).
Proof.
  intros Hbag. unfold bindFunction.
  destruct (parameters def) as [ps|]; [|apply frame_refl].
  cbn [fst]. by apply tryBind_spec.
Qed.

(** The loop, whatever the declarations and wherever it ends: it writes to
    the bag only. *)
Lemma bindFunctions_frame (lib : Lib) (nm : string) (b : Js.loc)
    (fns : list (string * NativeFunctionDef)) :
  forall st,
    isBag (heap st) t nm b ->
    let st' := (bindFunctions libFunc t lib nm fns st).1 in
    (forall l' k', l' <> b -> is_Some (heap st !! l') ->
                   Js.own (heap st') l' k' = Js.own (heap st) l' k')
    /\ (forall l', is_Some (heap st !! l') -> is_Some (heap st' !! l'))
    /\ isBag (heap st') t nm b.
Proof.
  induction fns as [|[g0 def0] fns IH]; intros st Hbag; cbn zeta;
    [by split_and!|].
  cbn [bindFunctions].
  pose proof (bindFunction_frame lib nm b g0 def0 st Hbag) as [F1 D1].
  destruct (bindFunction libFunc t lib nm (g0, def0) st) as [st1 [u|e]];
    cbn [fst] in *.
  - assert (Hbag1 : isBag (heap st1) t nm b)
      by (eapply isBag_frame; [exact Hbag|by split]).
    destruct (IH st1 Hbag1) as (F & D & B). cbn zeta in F, D, B.
    split_and!; [|auto|done].
    intros l' k' Hne Hl'. rewrite F, F1; auto.
  - split_and!; [|done|eapply isBag_frame; [exact Hbag|by split]].
    intros l' k' Hne Hl'. apply F1; auto.
Qed.

(** The whole loop over declarations that each carry their parameters: it
    reaches its end, every function is requested, a failed request leaves
    its key as it was, a granted one binds it. *)
Lemma bindFunctions_spec (lib : Lib) (nm : string) (b : Js.loc)
    (fns : list (string * NativeFunctionDef)) :
  NoDup fns.*1 ->
  Forall (fun fn : string * NativeFunctionDef => is_Some (parameters fn.2))
    fns ->
  forall st,
    isBag (heap st) t nm b ->
    (bindFunctions libFunc t lib nm fns st).2 = Ok tt
    /\ let st' := (bindFunctions libFunc t lib nm fns st).1 in
       (forall l' k', l' <> b \/ k' ∉ fns.*1 -> is_Some (heap st !! l') ->
                      Js.own (heap st') l' k' = Js.own (heap st) l' k')
       /\ (forall l', is_Some (heap st !! l') -> is_Some (heap st' !! l'))
       /\ isBag (heap st') t nm b
       /\ funcRequests (events st')
          = (funcRequests (events st) ++ map (fun fn => symbol fn.2) fns)%list
       /\ events st `prefix_of` events st'
       /\ loadedLibraries st' = loadedLibraries st
       /\ (forall g def e,
             (g, def) ∈ fns ->
             (forall r p, libFunc lib (symbol def) r p = Err e) ->
             Js.own (heap st') b g = Js.own (heap st) b g
             /\ ELog ("Warning: Failed to load native function " ++ g
                      ++ ": " ++ e) ∈ events st')
       /\ (forall g def,
             (g, def) ∈ fns ->
             (forall r p, libFunc lib (symbol def) r p = Ok tt) ->
             g <> "__proto__" ->
             exists f, Js.own (heap st') b g = Some (Js.VRef f)
                       /\ heap st !! f = None).
Proof.
  induction fns as [|[g0 def0] fns IH]; intros Hnd Hwd st Hbag; cbn zeta.
  { cbn. split_and!; try done.
    - by rewrite app_nil_r.
    - intros g def e Hin. by apply elem_of_nil in Hin.
    - intros g def Hin. by apply elem_of_nil in Hin. }
  cbn in Hnd. apply NoDup_cons in Hnd as [Hg0 Hnd].
  apply Forall_cons in Hwd as [[ps Hps] Hwd]. cbn [snd] in Hps.
  cbn [bindFunctions]. unfold bindFunction. rewrite Hps.
  set (params := map _ ps). set (res := translateType _ _).
  set (st1 := tryBind libFunc t lib nm g0 (symbol def0) res params st).
  destruct (tryBind_spec lib nm b g0 (symbol def0) res params st Hbag)
    as ([F1 D1] & R1 & P1 & L1 & E1 & O1).
  fold st1 in F1, D1, R1, P1, L1, E1, O1.
  assert (Hbag1 : isBag (heap st1) t nm b)
    by (eapply isBag_frame; [exact Hbag|by split]).
  destruct (IH Hnd Hwd st1 Hbag1) as (Hok & F & D & B & R & P & L & E & O).
  cbn zeta in F, D, B, R, P, L, E, O.
  pose proof Hbag as (_ & _ & Hb).
  split; [done|]. split_and!.
  - intros l' k' Hne Hl'. rewrite F, F1; auto.
    + destruct Hne as [?|Hk]; [by left|right]. cbn in Hk. set_solver.
    + destruct Hne as [?|Hk]; [by left|right]. cbn in Hk. set_solver.
  - auto.
  - done.
  - rewrite R, R1. cbn. by rewrite <- app_assoc.
  - by etrans.
  - congruence.
  - intros g def e [[= -> ->]|Hin]%elem_of_cons Hfail.
    + destruct (E1 e (Hfail res params)) as [Hh Hw]. split.
      * rewrite F; [by rewrite Hh|by right|by apply D1].
      * eapply elem_of_prefix; [exact Hw|exact P].
    + destruct (E g def e Hin Hfail) as [Hh Hw]. split; [|done].
      rewrite Hh. apply F1; [|done]. right. intros ->.
      apply Hg0. apply list_elem_of_fmap. by exists (g0, def).
  - intros g def [[= -> ->]|Hin]%elem_of_cons Hok' Hg.
    + exists (fresh (dom (heap st))). split.
      * rewrite F; [by apply O1|by right|by apply D1].
      * apply not_elem_of_dom, is_fresh.
    + destruct (O g def Hin Hok' Hg) as (f & Hf & Hnew).
      exists f. split; [done|].
      destruct (heap st !! f) eqn:Hsf; [|done].
      destruct (D1 f) as [x Hx]; [eauto|congruence].
Qed.


(** Under a name other than [__proto__], [t[name] = t[name] || {}] leaves
    [t] holding a bag as an own property: the object that was there, with
    its contents, or a new empty one. *)
Lemma initNamespace_bag (nm : string) (st : AState) :
  wfNamespace (heap st) t ->
  nm <> "__proto__" ->
  bagOrAbsent (heap st) t nm ->
  exists h' b,
    initNamespace t nm st = Some (withHeap h' st)
    /\ isBag h' t nm b
    /\ frame t nm (heap st) h'
    /\ (forall k, Js.own h' b k = Js.own (heap st) b k)
    /\ (Js.get (heap st) t nm = Js.VRef b
        \/ Js.truthy (Js.get (heap st) t nm) = false
           /\ b = fresh (dom (heap st))).
Proof.
  intros Hwf Hnm Hbag. pose proof Hwf as (Ht & Hne & _).
  unfold initNamespace, bagOrAbsent in *.
  destruct (Js.get (heap st) t nm) as [|s|b] eqn:Hget; cbn [Js.truthy].
  3: { (* an object is there *)
    destruct Hbag as [Hbt Hb]. rewrite set_data by done. cbn.
    exists (Js.setOwn (heap st) t nm (Js.VRef b)), b. unfold isBag.
    split_and!; try done.
    - by apply own_setOwn_eq.
    - by apply setOwn_is_Some.
    - apply frame_setOwn.
    - intros k. apply own_setOwn_ne. by left.
    - by left. }
  all: assert (Hfalsy : negb (String.eqb "" "") = false) by done.
  all: try (subst s; rewrite Hfalsy).
  all: cbn [Js.alloc list_to_map foldr];
    set (l := fresh (dom (heap st)));
    set (h1 := <[l := Js.mkObj ∅ (Some Js.objProto)]> (heap st));
    rewrite set_data by done; cbn;
    assert (Hl : heap st !! l = None) by apply not_elem_of_dom, is_fresh;
    assert (Hlt : l <> t) by (intros E; rewrite E in Hl; rewrite Hl in Ht; by destruct Ht);
    assert (Hf1 : frame t nm (heap st) h1) by apply (frame_alloc t nm []);
    exists (Js.setOwn h1 t nm (Js.VRef l)), l; unfold isBag;
    split_and!; try done;
    [ apply own_setOwn_eq; by apply Hf1
    | apply setOwn_is_Some; unfold h1; rewrite lookup_insert_eq; eauto
    | eapply frame_trans; [exact Hf1|apply frame_setOwn]
    | intros k; rewrite own_setOwn_ne by (by left);
      unfold Js.own, h1; by rewrite lookup_insert_eq, Hl
    | by right ].
Qed.


(** The hooks are written straight into the bag: no request is made, and
    the two writes do not fail. *)
Lemma bindHooks_spec (nm : string) (b : Js.loc) (keys : list string)
    (st : AState) :
  isBag (heap st) t nm b ->
  exists h',
    bindHooks t nm keys st = (withHeap h' st, Ok tt)
    /\ isBag h' t nm b
    /\ (forall l' k', l' <> b \/ k' ∉ declaredHooks (mkNative "" None (Some keys)) ->
                      is_Some (heap st !! l') ->
                      Js.own h' l' k' = Js.own (heap st) l' k')
    /\ (forall l', is_Some (heap st !! l') -> is_Some (h' !! l'))
    /\ ("serialize" ∈ keys ->
        Js.own h' b "serialize" = Some (Js.VRef Js.v8_serialize))
    /\ ("deserialize" ∈ keys ->
        Js.own h' b "deserialize" = Some (Js.VRef Js.v8_deserialize)).
Proof.
  intros Hbag. pose proof Hbag as (Hown & Hne & Hb).
  unfold bindHooks, bindHook, declaredHooks.
  cbn [v8_functions List.filter].
  assert (Hin : forall k, existsb (String.eqb k) keys = true <-> k ∈ keys).
  { intros k. rewrite existsb_exists. split.
    - intros (x & Hx & ->%String.eqb_eq). by apply list_elem_of_In.
    - intros Hk. exists k. split; [by apply list_elem_of_In|apply String.eqb_refl]. }
  rewrite (get_own _ _ _ _ Hown).
  destruct (existsb (String.eqb "serialize") keys) eqn:Hs.
  - cbn [Js.setV]. rewrite set_data by done. cbn [withHeap heap].
    set (h1 := Js.setOwn (heap st) b "serialize" (Js.VRef Js.v8_serialize)).
    assert (Hbag1 : isBag h1 t nm b)
      by (eapply isBag_frame; [exact Hbag|apply frame_setOwn]).
    rewrite (get_own _ _ _ _ (proj1 Hbag1)).
    destruct (existsb (String.eqb "deserialize") keys) eqn:Hd.
    + cbn [Js.setV]. rewrite set_data by done. cbn.
      eexists. split; [reflexivity|]. split_and!.
      * eapply isBag_frame; [exact Hbag1|apply frame_setOwn].
      * intros l' k' Hne' Hl'. unfold h1. rewrite !own_setOwn_ne; [done|..];
          (destruct Hne' as [?|Hk]; [left; congruence|right; set_solver]).
      * intros l' Hl'. by do 2 apply setOwn_is_Some.
      * intros _. rewrite own_setOwn_ne by (by right).
        by apply own_setOwn_eq.
      * intros _. apply own_setOwn_eq. by apply setOwn_is_Some.
    + exists h1. split; [reflexivity|]. unfold h1 in *.
      split_and!; [done| | | |].
      * intros l' k' Hne' Hl'. rewrite own_setOwn_ne; [done|].
        destruct Hne' as [?|Hk]; [left; congruence|right]. set_solver.
      * intros l' Hl'. by apply setOwn_is_Some.
      * intros _. by apply own_setOwn_eq.
      * intros Hk%Hin. congruence.
  - cbv beta iota. rewrite ?(get_own _ _ _ _ Hown).
    destruct (existsb (String.eqb "deserialize") keys) eqn:Hd.
    + cbn [Js.setV]. rewrite set_data by done. cbn.
      eexists. split; [reflexivity|]. split_and!.
      * eapply isBag_frame; [exact Hbag|apply frame_setOwn].
      * intros l' k' Hne' Hl'. rewrite own_setOwn_ne; [done|].
        destruct Hne' as [?|Hk]; [left; congruence|right]. set_solver.
      * intros l' Hl'. by apply setOwn_is_Some.
      * intros Hk%Hin. congruence.
      * intros _. by apply own_setOwn_eq.
    + exists (heap st). split; [by destruct st|]. split_and!; try done.
      * intros Hk%Hin. congruence.
      * intros Hk%Hin. congruence.
Qed.


(** The binding phase of an extension whose library is on disk and loads,
    under a name other than [__proto__] and over a bag of its own: it
    writes to the bag and to the extension's entry of [t] only; when the
    declarations are distinct and each carries its parameters, the loop and
    the hooks are run to their end. *)
Lemma bindingPhase_loaded (ext : TitanExtension) (nat : Native) (lib : Lib)
    (st : AState) :
  wfNamespace (heap st) t ->
  name ext <> "__proto__" ->
  bagOrAbsent (heap st) t (name ext) ->
  native (titanJson ext) = Some nat ->
  native_path nat <> "" ->
  existsSync (resolveDllPath (native_path nat) (path ext)) = true ->
  koffiLoad (resolveDllPath (native_path nat) (path ext)) = Ok lib ->
  exists st1 b,
    bindingPhase existsSync koffiLoad libFunc t ext st = Some st1
    /\ isBag (heap st1) t (name ext) b
    /\ (Js.get (heap st) t (name ext) = Js.VRef b \/ heap st !! b = None)
    /\ (forall l' k',
          l' <> b -> l' <> t \/ k' <> name ext -> is_Some (heap st !! l') ->
          Js.own (heap st1) l' k' = Js.own (heap st) l' k')
    /\ (NoDup (declaredFunctions nat).*1 ->
        wellDeclared nat ->
        (forall g def e,
            (g, def) ∈ declaredFunctions nat ->
            (forall r p, libFunc lib (symbol def) r p = Err e) ->
            ELog ("Warning: Failed to load native function " ++ g ++ ": " ++ e)
              ∈ events st1
            /\ (g ∉ declaredHooks nat ->
                Js.own (heap st1) b g = Js.own (heap st) b g))
        /\ (forall g def,
              (g, def) ∈ declaredFunctions nat ->
              (forall r p, libFunc lib (symbol def) r p = Ok tt) ->
              g <> "__proto__" -> g ∉ declaredHooks nat ->
              exists f, Js.get (heap st1) b g = Js.VRef f
                        /\ heap st !! f = None)
        /\ (forall hook, hook ∈ declaredHooks nat ->
              Js.get (heap st1) b hook = Js.VRef (hookTarget hook))
        /\ funcRequests (events st1)
           = (funcRequests (events st)
              ++ map (fun fn => symbol fn.2) (declaredFunctions nat))%list).
Proof.
  intros Hwf Hnm Hbag Hnat Hpath Hex Hload.
  unfold bindingPhase.
  set (st0 := emit _ st).
  destruct (initNamespace_bag (name ext) st0 Hwf Hnm Hbag)
    as (h' & b & Hinit & Hb & [Fi Di] & Hsame & Hid).
  change (heap st0) with (heap st) in *.
  rewrite Hinit. cbn [option_map].
  unfold loadNative. rewrite Hnat.
  assert (nonEmpty (native_path nat) = true) as ->
    by (apply negb_true_iff, String.eqb_neq, Hpath).
  rewrite Hex, Hload. unfold bindLibrary.
  set (dll := resolveDllPath _ _).
  set (sa := mkAState _ _ _).
  assert (Hba : isBag (heap sa) t (name ext) b) by exact Hb.
  assert (Hfns : match functions nat with
                 | Some fns => bindFunctions libFunc t lib (name ext) fns sa
                 | None => (sa, Ok tt)
                 end
                 = bindFunctions libFunc t lib (name ext)
                     (declaredFunctions nat) sa).
  { unfold declaredFunctions. by destruct (functions nat). }
  rewrite Hfns. clear Hfns.
  destruct (bindFunctions_frame lib (name ext) b (declaredFunctions nat)
              sa Hba) as (Fg & Dg & Bg).
  cbn zeta in Fg, Dg, Bg.
  pose proof (fun Hnd Hwd =>
                bindFunctions_spec lib (name ext) b (declaredFunctions nat)
                  Hnd Hwd sa Hba) as Hspec.
  cbn zeta in Hspec.
  destruct (bindFunctions libFunc t lib (name ext) (declaredFunctions nat) sa)
    as [st2 r2].
  cbn [fst snd] in Fg, Dg, Bg, Hspec.
  assert (Hid' : Js.get (heap st) t (name ext) = Js.VRef b
                 \/ heap st !! b = None).
  { destruct Hid as [?|[_ ->]]; [by left|right].
    apply not_elem_of_dom, is_fresh. }
  assert (Hdom : forall l', is_Some (heap st !! l') -> is_Some (heap st2 !! l')).
  { intros l' Hl'. apply Dg. cbn. by apply Di. }
  destruct r2 as [u|e2].
  - assert (Hhooks : exists h3 r,
      match v8_functions nat with
      | Some keys => (bindHooks t) (name ext) keys st2
      | None => (st2, Ok tt)
      end = (withHeap h3 st2, r)
      /\ r = Ok tt
      /\ isBag h3 t (name ext) b
      /\ (forall l' k', l' <> b \/ k' ∉ declaredHooks nat ->
                        is_Some (heap st2 !! l') ->
                        Js.own h3 l' k' = Js.own (heap st2) l' k')
      /\ (forall hook, hook ∈ declaredHooks nat ->
                       Js.own h3 b hook = Some (Js.VRef (hookTarget hook)))).
    { unfold declaredHooks. destruct (v8_functions nat) as [keys|] eqn:Hkeys.
      - destruct (bindHooks_spec (name ext) b keys st2 Bg)
          as (h3 & -> & B3 & F3 & D3 & S3 & S3').
        exists h3, (Ok tt). split_and!; try done.
        intros hook Hh. apply list_elem_of_In, filter_In in Hh as [Hh Hk].
        assert (hook ∈ keys) as Hin.
        { apply existsb_exists in Hk as (x & Hx & ->%String.eqb_eq).
          by apply list_elem_of_In. }
        destruct Hh as [<-|[<-|[]]]; cbn; auto.
      - exists (heap st2), (Ok tt). split_and!; try done.
        + by destruct st2.
        + intros hook Hh. by apply elem_of_nil in Hh. }
    destruct Hhooks as (h3 & r & -> & -> & B3 & F3 & S3).
    eexists _, b. split; [reflexivity|]. cbn [heap emit withHeap events].
    split; [done|]. split; [done|]. split.
    + intros l' k' Hlb Hne Hl'.
      rewrite F3; [|by left|by apply Hdom].
      rewrite Fg; [|done|cbn; by apply Di]. cbn.
      apply Fi; [|done]. destruct Hne; auto.
    + intros Hnd Hwd.
      destruct (Hspec Hnd Hwd) as (_ & F & D & B & R & P & L & E & O).
      split_and!.
      * intros g def e Hin Hfail. destruct (E g def e Hin Hfail) as [Hh Hw].
        split; [set_solver|].
        intros Hg. rewrite <- Hsame. cbn in Hh. rewrite <- Hh.
        apply F3; [by right|]. apply B.
      * intros g def Hin Hok Hg Hgh.
        destruct (O g def Hin Hok Hg) as (f & Hf & Hnew). cbn in Hnew.
        exists f. split.
        -- apply get_own. rewrite F3; [done|by right|apply B].
        -- destruct (heap st !! f) eqn:Hsf; [|done].
           destruct (Di f) as [x Hx]; [eauto|congruence].
      * intros hook Hh. by apply get_own, S3.
      * rewrite funcRequests_app. cbn. rewrite app_nil_r, R. cbn.
        unfold st0. cbn. rewrite !funcRequests_app. cbn.
        by rewrite !app_nil_r.
  - eexists _, b. split; [reflexivity|]. cbn [heap emit withHeap events].
    split; [done|]. split; [done|]. split.
    + intros l' k' Hlb Hne Hl'.
      rewrite Fg; [|done|cbn; by apply Di]. cbn.
      apply Fi; [|done]. destruct Hne; auto.
    + intros Hnd Hwd. by destruct (Hspec Hnd Hwd) as [? _].
Qed.


(** The binding phase of an extension whose library is missing or does not
    load: the bag is in place and holds what it held before. *)
Lemma bindingPhase_not_loaded (ext : TitanExtension) (nat : Native)
    (st : AState) :
  wfNamespace (heap st) t ->
  name ext <> "__proto__" ->
  bagOrAbsent (heap st) t (name ext) ->
  native (titanJson ext) = Some nat ->
  existsSync (resolveDllPath (native_path nat) (path ext)) = false
  \/ (exists e, koffiLoad (resolveDllPath (native_path nat) (path ext)) = Err e) ->
  exists st1 b,
    bindingPhase existsSync koffiLoad libFunc t ext st = Some st1
    /\ isBag (heap st1) t (name ext) b
    /\ (forall k, Js.own (heap st1) b k = Js.own (heap st) b k)
    /\ funcRequests (events st1) = funcRequests (events st).
Proof.
  intros Hwf Hnm Hbag Hnat Hno.
  unfold bindingPhase.
  set (st0 := emit _ st).
  destruct (initNamespace_bag (name ext) st0 Hwf Hnm Hbag)
    as (h' & b & Hinit & Hb & _ & Hsame & _).
  change (heap st0) with (heap st) in *.
  rewrite Hinit. cbn [option_map].
  assert (Hreq : funcRequests (events st0) = funcRequests (events st)).
  { unfold st0. cbn. rewrite funcRequests_app. cbn. by rewrite app_nil_r. }
  unfold loadNative. rewrite Hnat.
  destruct (nonEmpty (native_path nat));
    [|eexists _, b; split; [reflexivity|]; by split_and!].
  destruct (existsSync _) eqn:Hex.
  - destruct Hno as [?|[e He]]; [done|]. rewrite He.
    eexists _, b. split; [reflexivity|]. split_and!; try done.
    cbn. rewrite !funcRequests_app. cbn. by rewrite !app_nil_r.
  - eexists _, b. split; [reflexivity|]. split_and!; try done.
    cbn. rewrite !funcRequests_app. cbn. by rewrite !app_nil_r.
Qed.


(** C8 as the code has it: the hooks are bound inside the block that has
    loaded the library, after the loop over the declared functions.  Take
    an extension whose name is not [__proto__], whose entry in the
    namespace is absent, an empty string, or an object other than the
    namespace itself, and whose manifest has a [native] block with a
    non-empty path, distinct function names and a [parameters] array in
    every declaration.  When the library is on disk and loads, each
    declared hook is bound to the matching function of [node:v8], and the
    only requests made to the library are those of the declared functions;
    when it is missing or fails to load, the bag holds what it held before
    and no hook is bound. *)
Theorem hooks_bound_when_library_loads (ext : TitanExtension) (nat : Native)
    (st : AState) :
  wfNamespace (heap st) t ->
  name ext <> "__proto__" ->
  bagOrAbsent (heap st) t (name ext) ->
  native (titanJson ext) = Some nat ->
  native_path nat <> "" ->
  NoDup (declaredFunctions nat).*1 ->
  wellDeclared nat ->
  let dll := resolveDllPath (native_path nat) (path ext) in
  (forall lib,
      existsSync dll = true -> koffiLoad dll = Ok lib ->
      exists st1 b,
        bindingPhase existsSync koffiLoad libFunc t ext st = Some st1
        /\ isBag (heap st1) t (name ext) b
        /\ (forall hook, hook ∈ declaredHooks nat ->
              Js.get (heap st1) b hook = Js.VRef (hookTarget hook))
        /\ funcRequests (events st1)
           = (funcRequests (events st)
              ++ map (fun fn => symbol fn.2) (declaredFunctions nat))%list)
  /\ (existsSync dll = false \/ (exists e, koffiLoad dll = Err e) ->
      exists st1 b,
        bindingPhase existsSync koffiLoad libFunc t ext st = Some st1
        /\ isBag (heap st1) t (name ext) b
        /\ (forall k, Js.own (heap st1) b k = Js.own (heap st) b k)).
Proof.
  intros Hwf Hnm Hbag Hnat Hpath Hnd Hwd dll. split.
  - intros lib Hex Hload.
    destruct (bindingPhase_loaded ext nat lib st)
      as (st1 & b & H1 & H2 & _ & _ & Hrun); try done.
    destruct (Hrun Hnd Hwd) as (_ & _ & H5 & H6).
    by exists st1, b.
  - intros Hno.
    destruct (bindingPhase_not_loaded ext nat st)
      as (st1 & b & H1 & H2 & H3 & _); try done.
    by exists st1, b.
Qed.


End LoadProofs.

(** ** The theorems at a concrete project *)

Ltac in_list := apply list_elem_of_In; cbn; auto 10.
Ltac not_in_list :=
  let H := fresh in
  intros H%list_elem_of_In; cbn in H; intuition discriminate.

Lemma st0_wf : wfNamespace (heap Ex.st0) Ex.t0.
Proof.
  split_and!.
  - vm_compute. eauto.
  - vm_compute. discriminate.
  - eexists. split; [vm_compute; reflexivity|].
    split; [reflexivity|]. vm_compute. reflexivity.
Qed.

Lemma st0_no_core : bagOrAbsent (heap Ex.st0) Ex.t0 "core".
Proof. by vm_compute. Qed.

Lemma coreNative_NoDup : NoDup (declaredFunctions Ex.coreNative).*1.
Proof.
  cbn. apply NoDup_cons. split; [|apply NoDup_singleton].
  intros H%list_elem_of_singleton. discriminate.
Qed.

Lemma missing_library_degrades_witness :
  exists st1,
    bindingPhase Ex.noFiles Ex.loadOk Ex.funcOk Ex.t0 Ex.nativeCore Ex.st0
    = Some st1
    /\ Js.truthy (Js.get (heap st1) Ex.t0 "core") = true.
Proof.
  destruct (missing_library_degrades Ex.noFiles Ex.loadOk Ex.funcOk
              Ex.importNothing Ex.t0 Ex.nativeCore Ex.coreNative Ex.st0
              st0_wf eq_refl ltac:(discriminate) eq_refl)
    as (st1 & H1 & _ & _ & H4 & _).
  exists st1. split; assumption.
Defined.

Lemma coreNative_wellDeclared : wellDeclared Ex.coreNative.
Proof. repeat constructor; cbn; eauto. Qed.

Lemma hooks_bound_when_library_loads_witness :
  exists st1 b,
    bindingPhase Ex.allFiles Ex.loadOk Ex.funcOk Ex.t0 Ex.nativeCore Ex.st0
    = Some st1
    /\ isBag (heap st1) Ex.t0 "core" b
    /\ Js.get (heap st1) b "serialize" = Js.VRef Js.v8_serialize.
Proof.
  destruct (hooks_bound_when_library_loads Ex.allFiles Ex.loadOk Ex.funcOk
              Ex.importNothing Ex.t0 Ex.nativeCore Ex.coreNative Ex.st0
              st0_wf ltac:(discriminate) st0_no_core eq_refl
              ltac:(discriminate) coreNative_NoDup coreNative_wellDeclared)
    as [H _].
  destruct (H "/r/node_modules/core/native/core.so" eq_refl eq_refl)
    as (st1 & b & H1 & H2 & H3 & _).
  exists st1, b. split_and!; [exact H1|exact H2|].
  apply (H3 "serialize"). in_list.
Defined.

(** C8 as stated fails: the manifest declares the [serialize] hook, the
    library is not on disk, and the bag is left without [serialize]. *)
Lemma hooks_unbound_without_library :
  "serialize" ∈ declaredHooks Ex.coreNative
  /\ exists st1 b,
       bindingPhase Ex.noFiles Ex.loadOk Ex.funcOk Ex.t0 Ex.nativeCore Ex.st0
       = Some st1
       /\ Js.get (heap st1) Ex.t0 "core" = Js.VRef b
       /\ Js.get (heap st1) b "serialize" = Js.VUndef.
Proof.
  split; [in_list|].
  eexists _, _. split; [vm_compute; reflexivity|].
  split; vm_compute; reflexivity.
Qed.



(** C10 at an extension named [__proto__]: [t["__proto__"]] is
    [Object.prototype], the function [add] is written there, and [t["add"]],
    undefined before, is that function afterwards. *)
Theorem proto_extension_leaks :
  Js.get (heap Ex.st0) Ex.t0 "add" = Js.VUndef
  /\ exists st1 f,
       bindingPhase Ex.allFiles Ex.loadOk Ex.funcOk Ex.t0 Ex.protoExt Ex.st0
       = Some st1
       /\ Js.get (heap st1) Ex.t0 "__proto__" = Js.VRef Js.objProto
       /\ Js.own (heap st1) Js.objProto "add" = Some (Js.VRef f)
       /\ Js.get (heap st1) Ex.t0 "add" = Js.VRef f.
Proof.
  split; [vm_compute; reflexivity|].
  eexists _, _. split; [vm_compute; reflexivity|].
  split_and!; vm_compute; reflexivity.
Qed.

(* ===================================================================== *)
(** * Further properties of the code *)

(** ** Paths *)

Lemma prefix_refl (s : string) : String.prefix s s = true.
Proof.
  induction s as [|c s IH]; [done|]. cbn.
  destruct (ascii_dec c c); [done|congruence].
Qed.

Lemma prefix_app (a b : string) : String.prefix a (a ++ b) = true.
Proof.
  induction a as [|c a IH]; [by destruct b|].
  change (String c a ++ b) with (String c (a ++ b)). cbn.
  destruct (ascii_dec c c); [done|congruence].
Qed.

Lemma prefix_trans (a b c : string) :
  String.prefix a b = true -> String.prefix b c = true ->
  String.prefix a c = true.
Proof.
  revert b c. induction a as [|x a IH]; intros b c; [by destruct c|].
  destruct b as [|y b]; [discriminate|].
  destruct c as [|z c]; [discriminate|]. cbn.
  destruct (ascii_dec x y) as [->|]; [|discriminate].
  destruct (ascii_dec y z) as [->|]; [|discriminate]. apply IH.
Qed.

Lemma prefix_join (dir entry : string) :
  String.prefix dir (join dir entry) = true.
Proof.
  unfold join. destruct (String.eqb entry ""); [apply prefix_refl|].
  apply prefix_app.
Qed.

(** ** Discovery: what is registered, and what is logged *)

Lemma foundMessages_app (a b : list string) :
  foundMessages (a ++ b) = (foundMessages a ++ foundMessages b)%list.
Proof. apply List.filter_app. Qed.

Lemma scanned_refl (dir : string) (st : DState) : scanned dir st st.
Proof.
  exists []. rewrite app_nil_r. split_and!; [done|constructor|].
  exists []. by rewrite app_nil_r.
Qed.

Lemma scanned_trans (dir : string) (a b c : DState) :
  scanned dir a b -> scanned dir b c -> scanned dir a c.
Proof.
  intros (x & Hx & Fx & mx & Lx & Mx) (y & Hy & Fy & my & Ly & My).
  exists (x ++ y)%list. split_and!.
  - by rewrite Hy, Hx, app_assoc.
  - by apply Forall_app.
  - exists (mx ++ my)%list. split; [by rewrite Ly, Lx, app_assoc|].
    by rewrite foundMessages_app, map_app, Mx, My.
Qed.

Lemma scanned_weaken (dir dir' : string) (a b : DState) :
  String.prefix dir dir' = true -> scanned dir' a b -> scanned dir a b.
Proof.
  intros Hp (x & Hx & Fx & Hm). exists x. split_and!; [done| |done].
  eapply Forall_impl; [exact Fx|]. cbn. intros e (H1 & H2).
  split; [by eapply prefix_trans|done].
Qed.

Lemma checkTitanJson_scanned (fullPath : string) (cs : list (string * Node))
    (st : DState) :
  scanned fullPath st (checkTitanJson fullPath cs st).
Proof.
  unfold checkTitanJson.
  destruct (existsIn cs "titan.json"); [|apply scanned_refl].
  assert (Hwarn : forall msg,
    scanned fullPath st (log ("Warning: Invalid titan.json in " ++ msg) st)).
  { intros msg. exists []. rewrite app_nil_r. split_and!; [done|constructor|].
    eexists. split; [reflexivity|]. by vm_compute. }
  destruct (readManifest cs "titan.json") as [| | |tj];
    try apply Hwarn; try apply scanned_refl.
  destruct (nonEmpty (tj_name tj)) eqn:Hne; [|apply scanned_refl]. cbn.
  destruct (has (found st) (tj_name tj)) eqn:Hhas; [apply scanned_refl|]. cbn.
  exists [mkTitanExtension (tj_name tj) fullPath tj false]. cbn.
  split_and!.
  - by apply mapSet_fresh.
  - constructor; [|constructor]. cbn. split_and!; try done.
    + apply prefix_refl.
    + intros E. unfold nonEmpty in Hne. by rewrite E in Hne.
  - eexists. split; [reflexivity|]. by vm_compute.
Qed.

Lemma scanNodeModules_scanned (node : Node) :
  forall dir st, scanned dir st (scanNodeModules dir node st).
Proof.
  induction node as [c| |r cs IH] using Node_tree_ind2; intros dir st;
    try apply scanned_refl.
  destruct r; [|apply scanned_refl].
  rewrite scanNodeModules_unfold. revert st.
  induction IH as [|[entry c] rest [Hc Hcc] _ IHrest]; intros st;
    [apply scanned_refl|].
  cbn [fold_left]. eapply scanned_trans; [|apply IHrest].
  cbn [scanEntry].
  destruct (startsWith "." entry || String.eqb entry ".bin");
    [apply scanned_refl|].
  destruct c as [m|r' cs'|]; try apply scanned_refl.
  pose proof (prefix_join dir entry) as Hp.
  destruct (startsWith "@" entry);
    [eapply scanned_weaken; [exact Hp|apply Hc]|].
  eapply scanned_trans.
  { eapply scanned_weaken; [exact Hp|apply checkTitanJson_scanned]. }
  unfold scanNested.
  destruct (child cs' "node_modules") as [m|] eqn:Hm; [|apply scanned_refl].
  pose proof (child_Forall _ _ _ _ Hcc Hm) as Hm'. cbn in Hm'.
  assert (Hpn : String.prefix dir (join (join dir entry) "node_modules") = true)
    by (eapply prefix_trans; [exact Hp|apply prefix_join]).
  destruct m; eapply scanned_weaken; try exact Hpn; apply Hm'.
Qed.

Lemma checkLocal_state (rootDir : string) (cs : list (string * Node)) :
  let st := checkLocal rootDir cs (mkDState [] []) in
  (found st = []
   \/ exists tj, tj_name tj <> ""
                 /\ found st = [mkTitanExtension (tj_name tj) rootDir tj true])
  /\ foundMessages (logs st) = map foundMessage (found st).
Proof.
  unfold checkLocal.
  destruct (existsIn cs "titan.json"); [|by split; [left|]].
  destruct (readManifest cs "titan.json") as [| | |tj];
    try (split; [by left|done]).
  destruct (nonEmpty (tj_name tj)) eqn:Hne; [|by split; [left|]].
  split; [|by vm_compute].
  right. exists tj. split; [|done].
  intros E. unfold nonEmpty in Hne. by rewrite E in Hne.
Qed.

Lemma discoverState_scanned (rootDir : string) (root : Node) :
  scanned (join rootDir "node_modules")
    (checkLocal rootDir (childrenOf root) (mkDState [] []))
    (discoverState rootDir root).
Proof.
  unfold discoverState.
  destruct (child (childrenOf root) "node_modules") as [[| |]|];
    try apply scanned_refl; apply scanNodeModules_scanned.
Qed.

(** Every discovered extension has a name, the one its manifest gives; the
    local one sits at the root, every other one below the root's
    [node_modules]. *)
Theorem discovered_entries (rootDir : string) (root : Node)
    (e : TitanExtension) :
  e ∈ discoverExtensions rootDir root ->
  name e <> ""
  /\ name e = tj_name (titanJson e)
  /\ (if isLocal e then path e = rootDir
      else String.prefix (join rootDir "node_modules") (path e) = true).
Proof.
  unfold discoverExtensions.
  destruct (discoverState_scanned rootDir root) as (added & -> & Hadd & _).
  destruct (checkLocal_state rootDir (childrenOf root)) as [Hl _].
  cbn zeta in Hl. rewrite Forall_forall in Hadd.
  intros [Hin|Hin]%elem_of_app.
  - destruct Hl as [Hl|(tj & Hne & Hl)]; rewrite Hl in Hin.
    + by apply elem_of_nil in Hin.
    + apply list_elem_of_singleton in Hin as ->. by cbn.
  - destruct (Hadd e Hin) as (H1 & H2 & H3 & H4). by rewrite H2.
Qed.

Lemma discovered_entries_witness :
  name Ex.core <> ""
  /\ name Ex.core = tj_name (titanJson Ex.core)
  /\ String.prefix "/r/node_modules" (path Ex.core) = true.
Proof.
  apply (discovered_entries "/r" Ex.clashRoot Ex.core).
  vm_compute. apply list_elem_of_In. right. left. reflexivity.
Defined.

(** The log tells what was registered: its messages that start with
    ["Found "] are, in order, the messages of the discovered extensions. *)
Theorem discovery_log_matches (rootDir : string) (root : Node) :
  foundMessages (discoverLog rootDir root)
  = map foundMessage (discoverExtensions rootDir root).
Proof.
  unfold discoverLog, discoverExtensions.
  destruct (discoverState_scanned rootDir root)
    as (added & -> & _ & msgs & -> & Hm).
  destruct (checkLocal_state rootDir (childrenOf root)) as [_ Hl].
  cbn zeta in Hl.
  by rewrite foundMessages_app, map_app, Hl, Hm.
Qed.

Lemma fold_scanEntry_hidden (dir : string) (es : list (string * Node))
    (st : DState) :
  Forall (fun e => startsWith "." e.1 = true) es ->
  fold_left (fun s e => scanEntry dir e s) es st = st.
Proof.
  intros H. revert st. induction H as [|[entry c] es He _ IH]; intros st;
    [done|].
  cbn [fold_left scanEntry]. cbn [fst] in He. rewrite He. cbn [orb]. apply IH.
Qed.

(** A project without a manifest finds nothing and logs nothing when its
    [node_modules] is missing, is not a directory that can be listed, or
    lists only entries whose names start with a dot. *)
Theorem discover_nothing (rootDir : string) (root : Node) :
  existsIn (childrenOf root) "titan.json" = false ->
  match child (childrenOf root) "node_modules" with
  | Some (Dir true es) => Forall (fun e => startsWith "." e.1 = true) es
  | _ => True
  end ->
  discoverExtensions rootDir root = [] /\ discoverLog rootDir root = [].
Proof.
  intros Hno Hnm. unfold discoverExtensions, discoverLog, discoverState.
  unfold checkLocal. rewrite Hno.
  destruct (child (childrenOf root) "node_modules") as [[c|[] es|]|];
    try done.
  rewrite scanNodeModules_unfold, fold_scanEntry_hidden; done.
Qed.

Lemma discover_nothing_witness :
  discoverExtensions "/r" Ex.hiddenRoot = []
  /\ discoverLog "/r" Ex.hiddenRoot = [].
Proof.
  apply (discover_nothing "/r" Ex.hiddenRoot); [reflexivity|].
  cbn. repeat constructor.
Defined.

Lemma discoverExtensions_discovered (rootDir : string) (root : Node) :
  discovered (discoverExtensions rootDir root).
Proof.
  unfold discoverExtensions, discovered.
  destruct (discoverState_extends rootDir root) as (added & Hf & Hloc & Hnd).
  destruct (checkLocal_state rootDir (childrenOf root)) as [Hl _].
  cbn zeta in Hl. split.
  - apply Hnd. destruct Hl as [->|(tj & _ & ->)];
      [constructor|apply NoDup_singleton].
  - rewrite Hf, List.filter_app, (filter_isLocal_nil added Hloc), app_nil_r.
    destruct Hl as [->|(tj & _ & ->)]; cbn; lia.
Qed.

(** Discovery and sorting compose: whatever the tree and the package files,
    the sort of a discovery returns, and returns every discovered extension
    once. *)
Theorem sort_of_discovery (readPackage : string -> option PackageJson)
    (rootDir : string) (root : Node) :
  exists l,
    sortByDependencies readPackage (discoverExtensions rootDir root) = Some l
    /\ l ≡ₚ discoverExtensions rootDir root.
Proof.
  pose proof (discoverExtensions_discovered rootDir root) as Hd.
  destruct (sortWith_spec readPackage (discoverExtensions rootDir root)
              (fun _ => True) (sortFuel (discoverExtensions rootDir root)))
    as (st & Hs & HI & _ & HN); try done.
  { apply sortFuel_enough, Hd. }
  exists (sorted st). split; [exact Hs|].
  apply sorted_Permutation; [apply Hd|done|done].
Qed.

(** ** Sorting: the merged dependency keys *)

Lemma dedup_spec (l : list string) :
  forall seen,
    NoDup (dedup seen l)
    /\ (forall k, k ∈ dedup seen l <-> k ∈ l /\ k ∉ seen).
Proof.
  induction l as [|x l IH]; intros seen; cbn [dedup].
  { split; [constructor|]. intros k. split; [by intros ?%elem_of_nil|].
    by intros [?%elem_of_nil _]. }
  assert (Hseen : existsb (String.eqb x) seen = true <-> x ∈ seen).
  { rewrite existsb_exists. split.
    - intros (y & Hy & ->%String.eqb_eq). by apply list_elem_of_In.
    - intros Hx. exists x. split; [by apply list_elem_of_In|].
      apply String.eqb_refl. }
  destruct (existsb (String.eqb x) seen) eqn:Hx.
  - destruct (IH seen) as [Hnd Hin]. split; [done|].
    intros k. rewrite Hin, elem_of_cons.
    assert (x ∈ seen) by (by apply Hseen). naive_solver.
  - destruct (IH (x :: seen)) as [Hnd Hin].
    assert (x ∉ seen) as Hxs by (intros ?%Hseen; congruence).
    split.
    + apply NoDup_cons. split; [|done]. rewrite Hin.
      intros [_ Hn]. apply Hn. by left.
    + intros k. rewrite !elem_of_cons, Hin, not_elem_of_cons.
      destruct (decide (k = x)) as [->|]; naive_solver.
Qed.

(** Listing the keys of an object reorders them and nothing else. *)
Lemma ownKeysOrder_Permutation (ks : list string) : ownKeysOrder ks ≡ₚ ks.
Proof.
  unfold ownKeysOrder.
  etrans;
    [apply Permutation_app;
       [apply Permutation_map, merge_sort_Permutation|reflexivity]|].
  induction ks as [|k ks IH]; [done|].
  cbn. destruct (arrayIndex k) as [n|] eqn:Hk; cbn.
  - by apply Permutation_cons.
  - rewrite <- Permutation_middle. by apply Permutation_cons.
Qed.

(** The names [visit] runs over: each key of the three dependency tables,
    once. *)
Theorem allDeps_keys (pkg : PackageJson) :
  NoDup (allDeps pkg)
  /\ (forall k, k ∈ allDeps pkg <->
                k ∈ dependencies pkg \/ k ∈ peerDependencies pkg
                \/ k ∈ devDependencies pkg).
Proof.
  unfold allDeps.
  destruct (dedup_spec (dependencies pkg ++ peerDependencies pkg
                        ++ devDependencies pkg)%list []) as [Hnd Hin].
  split; [by rewrite ownKeysOrder_Permutation|].
  intros k. rewrite ownKeysOrder_Permutation, Hin, !elem_of_app.
  split; [tauto|]. intros H. split; [tauto|]. by intros ?%elem_of_nil.
Qed.

(** ** Sorting: where the local extension ends up *)

Section SortMore.
Variable readPackage : string -> option PackageJson.
Variable extensions : list TitanExtension.

(** A first visit of an extension emits it last. *)
Lemma visit_emits_last (f : nat) (ext : TitanExtension) (st st' : SState) :
  name ext ∉ visited st -> name ext ∉ visiting st ->
  visit readPackage extensions (S f) ext st = Some st' ->
  exists l', sorted st' = (l' ++ [ext])%list.
Proof.
  intros Hv Hg. cbn [visit].
  rewrite decide_False, decide_False by done.
  destruct (foldM _ _ _) as [st2|]; [|done].
  intros [= <-]. cbn. eauto.
Qed.

(** A visit that starts elsewhere does not reach an extension nobody else
    depends on. *)
Lemma visit_avoids (L : TitanExtension) (fuel : nat) :
  (forall x, x ∈ extensions -> name x <> name L ->
             name L ∉ depNames readPackage x) ->
  forall ext st st',
    ext ∈ extensions -> name ext <> name L ->
    name L ∉ visited st ->
    visit readPackage extensions fuel ext st = Some st' ->
    name L ∉ visited st'.
Proof.
  intros Hdep. induction fuel as [|f IH]; intros ext st st' Hext Hne Hv;
    [done|].
  cbn [visit].
  destruct (decide (name ext ∈ visited st)); [by intros [= <-]|].
  destruct (decide (name ext ∈ visiting st)); [by intros [= <-]|].
  set (step := fun depName s =>
                 match byName extensions depName with
                 | Some dep => visit readPackage extensions f dep s
                 | None => Some s
                 end).
  assert (Hloop : forall deps s s',
    (forall d, d ∈ deps -> d <> name L) ->
    name L ∉ visited s -> foldM step deps s = Some s' ->
    name L ∉ visited s').
  { induction deps as [|d deps IHd]; intros s s' Hds Hs.
    - cbn. by intros [= <-].
    - cbn [foldM]. unfold step at 1.
      destruct (byName extensions d) as [dep|] eqn:Hd.
      + apply byName_Some in Hd as [Hdep' Hname].
        destruct (visit readPackage extensions f dep s) as [s1|] eqn:Hs1;
          [|done].
        apply IHd; [intros d' Hd'; apply Hds; by right|].
        apply (IH dep s s1); try done.
        rewrite Hname. apply Hds. by left.
      + apply IHd; [intros d' Hd'; apply Hds; by right|done]. }
  fold step.
  destruct (foldM step (depNames readPackage ext) _) as [st2|] eqn:Hfold;
    [|done].
  intros [= <-]. cbn.
  apply Hloop in Hfold; [|intros d Hd ->; by apply (Hdep ext)|done].
  set_solver.
Qed.

Lemma roots_avoid (L : TitanExtension) (fuel : nat) :
  (forall x, x ∈ extensions -> name x <> name L ->
             name L ∉ depNames readPackage x) ->
  size (list_to_set (map name extensions) : gset string) < fuel ->
  forall roots st,
    Forall (fun r => r ∈ extensions /\ name r <> name L) roots ->
    Inv extensions st -> visiting st = ∅ -> name L ∉ visited st ->
    exists st',
      foldM (visit readPackage extensions fuel) roots st = Some st'
      /\ Inv extensions st' /\ visiting st' = ∅ /\ name L ∉ visited st'.
Proof.
  intros Hdep Hfuel roots.
  induction roots as [|r roots IH]; intros st Hroots HI Hvis Hv.
  { exists st. by split_and!. }
  apply Forall_cons in Hroots as [[Hr Hne] Hroots]. cbn [foldM].
  destruct (visit_spec readPackage extensions fuel r st Hr HI)
    as (s1 & Hs1 & [H1 H2 _ _ _]).
  { rewrite Hvis.
    by replace (list_to_set (map name extensions) ∖ ∅)
      with (list_to_set (map name extensions) : gset string) by set_solver. }
  rewrite Hs1. apply IH; [done|done|congruence|].
  by apply (visit_avoids L fuel Hdep r st s1).
Qed.

End SortMore.

(** When no other extension names the local one among its dependencies, the
    local extension is the last of the load order. *)
Theorem local_last_unless_depended_on
    (readPackage : string -> option PackageJson)
    (extensions : list TitanExtension) (L : TitanExtension) :
  discovered extensions ->
  L ∈ extensions -> isLocal L = true ->
  (forall x, x ∈ extensions -> isLocal x = false ->
             name L ∉ depNames readPackage x) ->
  exists l', sortByDependencies readPackage extensions = Some (l' ++ [L])%list.
Proof.
  intros [Hnd Hone] HL Hloc Hdep.
  assert (Hfilter : List.filter isLocal extensions = [L]).
  { assert (In L (List.filter isLocal extensions)) as Hin
      by (apply filter_In; split; [by apply list_elem_of_In|done]).
    destruct (List.filter isLocal extensions) as [|a [|b rest]];
      cbn in Hone, Hin; [done| |lia].
    destruct Hin as [->|[]]. done. }
  assert (Hother : forall x, x ∈ extensions -> name x <> name L ->
                             name L ∉ depNames readPackage x).
  { intros x Hx Hne. apply Hdep; [done|].
    destruct (isLocal x) eqn:Hlx; [|done].
    assert (In x (List.filter isLocal extensions)) as Hin
      by (apply filter_In; split; [by apply list_elem_of_In|done]).
    rewrite Hfilter in Hin. destruct Hin as [<-|[]]. done. }
  unfold sortByDependencies, sortWith.
  destruct (roots_avoid readPackage extensions L (sortFuel extensions) Hother
              (sortFuel_enough extensions Hnd)
              (List.filter (fun e => negb (isLocal e)) extensions)
              (mkSState ∅ ∅ []))
    as (s1 & -> & H1 & H2 & H3); [|apply Inv_init|done|set_solver|].
  { apply Forall_forall. intros x Hx%list_elem_of_In%filter_In.
    destruct Hx as [Hx Hnl]. split; [by apply list_elem_of_In|].
    intros Heq. apply list_elem_of_In in Hx.
    rewrite (name_inj extensions x L Hnd Hx HL Heq), Hloc in Hnl. done. }
  rewrite find_head_filter, Hfilter. cbn [head].
  destruct (visit_spec readPackage extensions (sortFuel extensions) L s1 HL H1)
    as (s2 & Hs2 & _).
  { rewrite H2.
    replace (list_to_set (map name extensions) ∖ ∅)
      with (list_to_set (map name extensions) : gset string) by set_solver.
    by apply sortFuel_enough. }
  rewrite Hs2. cbn.
  destruct (visit_emits_last readPackage extensions (length extensions) L s1 s2)
    as [l' ->]; [done|rewrite H2; set_solver|exact Hs2|].
  by exists l'.
Qed.

Lemma local_last_unless_depended_on_witness :
  exists l', sortByDependencies Ex.appPackages [Ex.app; Ex.core]
             = Some (l' ++ [Ex.app])%list.
Proof.
  apply (local_last_unless_depended_on Ex.appPackages [Ex.app; Ex.core] Ex.app
           app_core_discovered).
  - apply list_elem_of_In. left. reflexivity.
  - reflexivity.
  - intros x Hx%list_elem_of_In Hl. cbn in Hx.
    destruct Hx as [<-|[<-|[]]]; [discriminate|].
    vm_compute. intros H%list_elem_of_In. destruct H.
Defined.

(** ** Sorting: without dependencies among the extensions *)

Section SortPlain.
Variable readPackage : string -> option PackageJson.
Variable extensions : list TitanExtension.

Lemma byName_unresolved (d : string) :
  d ∉ map name extensions -> byName extensions d = None.
Proof.
  intros Hd. destruct (byName extensions d) as [e|] eqn:He; [|done].
  apply byName_Some in He as [He <-]. destruct Hd.
  apply list_elem_of_fmap. eauto.
Qed.

Lemma visit_plain (f : nat) (ext : TitanExtension) (st : SState) :
  name ext ∉ visited st -> visiting st = ∅ ->
  (forall d, d ∈ depNames readPackage ext -> d ∉ map name extensions) ->
  exists st',
    visit readPackage extensions (S f) ext st = Some st'
    /\ visiting st' = ∅
    /\ visited st' = {[name ext]} ∪ visited st
    /\ sorted st' = (sorted st ++ [ext])%list.
Proof.
  intros Hv Hvis Hdeps. cbn [visit].
  rewrite decide_False by done.
  rewrite decide_False by (rewrite Hvis; set_solver).
  set (step := fun depName s =>
                 match byName extensions depName with
                 | Some dep => visit readPackage extensions f dep s
                 | None => Some s
                 end).
  assert (Hloop : forall deps s,
    (forall d, d ∈ deps -> d ∉ map name extensions) ->
    foldM step deps s = Some s).
  { induction deps as [|d deps IHd]; intros s Hds; [done|].
    cbn [foldM]. unfold step at 1.
    rewrite byName_unresolved by (apply Hds; by left).
    apply IHd. intros d' Hd'. apply Hds. by right. }
  rewrite Hloop by done. eexists. split; [reflexivity|]. cbn.
  split_and!; [|done|done]. rewrite Hvis. set_solver.
Qed.

Lemma roots_plain (f : nat) (roots : list TitanExtension) :
  NoDup (map name roots) ->
  Forall (fun r => forall d, d ∈ depNames readPackage r ->
                             d ∉ map name extensions) roots ->
  forall st,
    visiting st = ∅ ->
    (forall r, r ∈ roots -> name r ∉ visited st) ->
    exists st',
      foldM (visit readPackage extensions (S f)) roots st = Some st'
      /\ visiting st' = ∅
      /\ visited st' = visited st ∪ list_to_set (map name roots)
      /\ sorted st' = (sorted st ++ roots)%list.
Proof.
  induction roots as [|r roots IH]; intros Hnd Hdeps st Hvis Hfresh.
  { exists st. cbn. rewrite app_nil_r. split_and!; try done. set_solver. }
  cbn in Hnd. apply NoDup_cons in Hnd as [Hr Hnd].
  apply Forall_cons in Hdeps as [Hd Hdeps]. cbn [foldM].
  destruct (visit_plain f r st) as (s1 & -> & V1 & V2 & V3);
    [apply Hfresh; by left|done|done|].
  destruct (IH Hnd Hdeps s1 V1) as (st' & -> & W1 & W2 & W3).
  { intros r' Hr'. rewrite V2.
    assert (name r' <> name r).
    { intros E. apply Hr. rewrite <- E. apply list_elem_of_fmap. eauto. }
    assert (name r' ∉ visited st) by (apply Hfresh; by right).
    set_solver. }
  exists st'. split_and!; [done|done| |].
  - rewrite W2, V2. cbn. set_solver.
  - rewrite W3, V3. by rewrite <- app_assoc.
Qed.

End SortPlain.

(** When no dependency key names a discovered extension (in particular
    when there is no [package.json] at all), the load order is the
    discovery order with the local extension moved to the end. *)
Theorem sort_without_dependencies
    (readPackage : string -> option PackageJson)
    (extensions : list TitanExtension) :
  discovered extensions ->
  (forall e d, e ∈ extensions -> d ∈ depNames readPackage e ->
               d ∉ map name extensions) ->
  sortByDependencies readPackage extensions
  = Some (List.filter (fun e => negb (isLocal e)) extensions
          ++ List.filter isLocal extensions)%list.
Proof.
  intros [Hnd Hone] Hdeps. unfold sortByDependencies, sortWith, sortFuel.
  set (roots := List.filter (fun e => negb (isLocal e)) extensions).
  assert (Hsub : forall r, In r roots -> r ∈ extensions /\ isLocal r = false).
  { intros r [Hr Hl]%filter_In. split; [by apply list_elem_of_In|].
    by destruct (isLocal r). }
  assert (Hndr : NoDup (map name roots)).
  { clear -Hnd. unfold roots. induction extensions as [|x l IH]; [constructor|].
    cbn in Hnd. apply NoDup_cons in Hnd as [Hx Hnd]. cbn.
    destruct (negb (isLocal x)); [|by apply IH].
    cbn. apply NoDup_cons. split; [|by apply IH].
    intros (y & Hy & Hin)%list_elem_of_fmap. apply Hx.
    apply list_elem_of_fmap. exists y. split; [done|].
    apply list_elem_of_In, filter_In in Hin as [Hin _].
    by apply list_elem_of_In. }
  destruct (roots_plain readPackage extensions (length extensions) roots Hndr)
    with (st := mkSState ∅ ∅ []) as (s1 & -> & V1 & V2 & V3); try done.
  { apply Forall_forall. intros r Hr%list_elem_of_In%Hsub d Hd.
    destruct Hr as [Hr _]. by apply (Hdeps r d). }
  cbn in V2, V3. rewrite find_head_filter.
  destruct (List.filter isLocal extensions) as [|l [|l' rest]] eqn:Hf;
    cbn in Hone; [| |lia]; cbn [head].
  - by rewrite V3, app_nil_r.
  - assert (In l (List.filter isLocal extensions)) as Hin
      by (rewrite Hf; by left).
    apply filter_In in Hin as [Hl Hloc]. apply list_elem_of_In in Hl.
    destruct (visit_plain readPackage extensions (length extensions) l s1)
      as (s2 & -> & _ & _ & W3);
      [|done|intros d Hd; by apply (Hdeps l d)|].
    + rewrite V2. intros [H|H]%elem_of_union; [set_solver|].
      apply elem_of_list_to_set, list_elem_of_fmap in H as (r & Heq & Hr).
      apply list_elem_of_In, Hsub in Hr as [Hr Hnl].
      rewrite (name_inj extensions l r Hnd Hl Hr Heq) in Hloc. congruence.
    + cbn. by rewrite W3, V3.
Qed.

Lemma sort_without_dependencies_witness :
  sortByDependencies (fun _ => None) [Ex.app; Ex.core]
  = Some [Ex.core; Ex.app].
Proof.
  apply (sort_without_dependencies (fun _ => None) [Ex.app; Ex.core]
           app_core_discovered).
  intros e d _ Hd. by apply elem_of_nil in Hd.
Defined.

(** ** Activation: what the loader keeps and what it logs *)

Lemma loadings_app (a b : list Event) :
  loadings (a ++ b) = (loadings a ++ loadings b)%list.
Proof. apply omap_app. Qed.

Section Trace.
Variable existsSync : string -> bool.
Variable koffiLoad : string -> Res Lib.
Variable libFunc : Lib -> string -> Js.Val -> list Js.Val -> Res unit.
Variable importModule : string -> Js.Heap -> Js.Heap * Res unit.
Variable t : Js.loc.

Lemma quiet_refl (st : AState) : quiet st st.
Proof. exists []. by rewrite app_nil_r. Qed.

Lemma quiet_trans (a b c : AState) : quiet a b -> quiet b c -> quiet a c.
Proof.
  intros (x & Hx & Lx & Kx) (y & Hy & Ly & Ky). exists (x ++ y)%list.
  split_and!; [by rewrite Hy, Hx, app_assoc| |congruence].
  by rewrite loadings_app, Lx, Ly.
Qed.

Lemma quiet_withHeap (h : Js.Heap) (st : AState) : quiet st (withHeap h st).
Proof. exists []. by rewrite app_nil_r. Qed.

Lemma quiet_emit (e : Event) (st : AState) :
  loadings [e] = [] -> quiet st (emit e st).
Proof. intros He. by exists [e]. Qed.

Lemma tryBind_quiet (lib : Lib) (nm g sym : string) (res : Js.Val)
    (params : list Js.Val) (st : AState) :
  quiet st (tryBind libFunc t lib nm g sym res params st).
Proof.
  unfold tryBind.
  set (st1 := emit _ st).
  assert (H1 : quiet st st1) by (by apply quiet_emit).
  destruct (libFunc _ _ _ _) as [u|e].
  - cbn [Js.alloc]. destruct (Js.setV _ _ _ _) as [h2|].
    + eapply quiet_trans; [exact H1|apply quiet_withHeap].
    + eapply quiet_trans; [exact H1|].
      eapply quiet_trans; [apply quiet_withHeap|by apply quiet_emit].
  - eapply quiet_trans; [exact H1|by apply quiet_emit].
Qed.

Lemma bindFunction_quiet (lib : Lib) (nm : string)
    (fn : string * NativeFunctionDef) (st : AState) :
  quiet st (bindFunction libFunc t lib nm fn st).1.
Proof.
  destruct fn as [g def]. unfold bindFunction.
  destruct (parameters def) as [ps|]; [apply tryBind_quiet|apply quiet_refl].
Qed.

Lemma bindFunctions_quiet (lib : Lib) (nm : string)
    (fns : list (string * NativeFunctionDef)) (st : AState) :
  quiet st (bindFunctions libFunc t lib nm fns st).1.
Proof.
  revert st. induction fns as [|fn fns IH]; intros st; [apply quiet_refl|].
  cbn [bindFunctions].
  pose proof (bindFunction_quiet lib nm fn st) as H1.
  destruct (bindFunction libFunc t lib nm fn st) as [st1 [u|e]];
    [|exact H1].
  eapply quiet_trans; [exact H1|apply IH].
Qed.

Lemma bindHook_quiet (nm : string) (keys : list string) (hook : string)
    (fn : Js.loc) (st : AState) :
  quiet st (bindHook t nm keys hook fn st).1.
Proof.
  unfold bindHook. destruct (existsb _ keys); [|apply quiet_refl].
  destruct (Js.setV _ _ _ _); [apply quiet_withHeap|apply quiet_refl].
Qed.

Lemma bindHooks_quiet (nm : string) (keys : list string) (st : AState) :
  quiet st (bindHooks t nm keys st).1.
Proof.
  unfold bindHooks.
  pose proof (bindHook_quiet nm keys "serialize" Js.v8_serialize st) as H1.
  destruct (bindHook t nm keys "serialize" Js.v8_serialize st) as [st1 [u|e]];
    [|exact H1].
  eapply quiet_trans; [exact H1|apply bindHook_quiet].
Qed.

(** The libraries [loadNative] adds to the kept ones: the one it loads. *)
Lemma loadNative_trace (ext : TitanExtension) (st : AState) :
  exists evs,
    events (loadNative existsSync koffiLoad libFunc t ext st)
    = (events st ++ evs)%list
    /\ loadings evs = []
    /\ loadedLibraries (loadNative existsSync koffiLoad libFunc t ext st)
       = (loadedLibraries st ++ loadedBy existsSync koffiLoad ext)%list.
Proof.
  unfold loadNative, loadedBy.
  destruct (native (titanJson ext)) as [nat|];
    [|exists []; by rewrite !app_nil_r].
  destruct (nonEmpty (native_path nat)); [|exists []; by rewrite !app_nil_r].
  set (dll := resolveDllPath _ _).
  destruct (existsSync dll);
    [|eexists [_]; cbn; by rewrite app_nil_r].
  destruct (koffiLoad dll) as [lib|e];
    [|eexists [_; _]; cbn; rewrite <- app_assoc; by rewrite app_nil_r].
  unfold bindLibrary.
  set (sa := mkAState _ _ _).
  set (r1 := match functions nat with
             | Some fns => bindFunctions libFunc t lib (name ext) fns sa
             | None => (sa, Ok tt)
             end).
  assert (H2 : quiet sa r1.1).
  { unfold r1. destruct (functions nat);
      [apply bindFunctions_quiet|apply quiet_refl]. }
  set (r := match r1 with
            | (st2, Ok _) =>
                match v8_functions nat with
                | Some keys => bindHooks t (name ext) keys st2
                | None => (st2, Ok tt)
                end
            | (st2, Err e) => (st2, Err e)
            end).
  assert (H3 : quiet sa r.1).
  { unfold r. destruct r1 as [st2 [u|e]]; cbn [fst] in *; [|exact H2].
    eapply quiet_trans; [exact H2|].
    destruct (v8_functions nat); [apply bindHooks_quiet|apply quiet_refl]. }
  destruct H3 as (evs & He & Hl & Hk).
  cbn in He, Hk.
  destruct r as [st3 [u|e]]; cbn [fst] in *; cbn [events emit loadedLibraries].
  - exists ([ELoad dll] ++ evs ++ [ELog ("Loaded native: " ++ dll)])%list.
    split_and!; [rewrite He; by rewrite <- !app_assoc| |done].
    rewrite !loadings_app, Hl. done.
  - exists ([ELoad dll] ++ evs
            ++ [ELog ("Warning: Failed to load DLL " ++ dll ++ ": " ++ e)])%list.
    split_and!; [rewrite He; by rewrite <- !app_assoc| |done].
    rewrite !loadings_app, Hl. done.
Qed.

(** One activation that returns: one ["Loading: ..."] message, that of the
    extension, and the library it loaded added to the kept ones. *)
Lemma loadExtension_trace (ext : TitanExtension) (st st' : AState) :
  loadExtension existsSync koffiLoad libFunc importModule t ext st = Some st' ->
  events st `prefix_of` events st'
  /\ loadings (events st')
     = (loadings (events st) ++ [loadingMessage ext])%list
  /\ loadedLibraries st'
     = (loadedLibraries st ++ loadedBy existsSync koffiLoad ext)%list.
Proof.
  unfold loadExtension, bindingPhase.
  fold (loadingMessage ext).
  set (st0 := emit (ELog (loadingMessage ext)) st).
  destruct (initNamespace t (name ext) st0) as [st1|] eqn:Hinit; [|done].
  cbn [option_map]. intros [= <-].
  assert (H1 : events st1 = events st0 /\ loadedLibraries st1 = loadedLibraries st0).
  { unfold initNamespace in Hinit.
    destruct (Js.truthy _); [|destruct (Js.alloc _ _) as [l h1]];
      destruct (Js.set _ _ _ _); cbn in Hinit; try done;
      by injection Hinit as <-. }
  destruct H1 as [E1 K1].
  destruct (loadNative_trace ext st1) as (evs & E2 & L2 & K2).
  set (st2 := loadNative existsSync koffiLoad libFunc t ext st1) in *.
  assert (Hmain : exists evs',
    events (loadMain existsSync importModule ext st2) = (events st2 ++ evs')%list
    /\ loadings evs' = []
    /\ loadedLibraries (loadMain existsSync importModule ext st2)
       = loadedLibraries st2).
  { unfold loadMain. destruct (existsSync (mainPath ext));
      [|exists []; by rewrite app_nil_r].
    destruct (importModule _ _) as [h [u|e]]; eexists [_; _]; cbn;
      by rewrite <- app_assoc. }
  destruct Hmain as (evs' & E3 & L3 & K3).
  rewrite E3, E2, E1, K3, K2, K1. unfold st0. cbn [events emit loadedLibraries].
  split_and!; [|  |done].
  - rewrite <- !app_assoc. by apply prefix_app_r.
  - rewrite !loadings_app, L2, L3, !app_nil_r. f_equal.
    assert (String.prefix "Loading: " (loadingMessage ext) = true) as Hp
      by apply prefix_app.
    unfold loadings. cbn [omap list_omap]. by rewrite Hp.
Qed.

(** The whole loop: the extensions are started one after the other in the
    order given, each once, and no kept library is dropped. *)
Lemma loadAll_trace (sorted : list TitanExtension)
    (st st' : AState) :
  loadAll existsSync koffiLoad libFunc importModule t sorted st = Some st' ->
  events st `prefix_of` events st'
  /\ loadings (events st')
     = (loadings (events st) ++ map loadingMessage sorted)%list
  /\ loadedLibraries st'
     = (loadedLibraries st
        ++ concat (map (loadedBy existsSync koffiLoad) sorted))%list.
Proof.
  unfold loadAll. revert st.
  induction sorted as [|ext sorted IH]; intros st; cbn [foldM].
  { intros [= <-]. cbn. by rewrite !app_nil_r. }
  destruct (loadExtension _ _ _ _ _ ext st) as [s1|] eqn:H1; [|done].
  intros H2. apply loadExtension_trace in H1 as (P1 & L1 & K1).
  apply IH in H2 as (P2 & L2 & K2).
  split_and!; [by etrans| |].
  - rewrite L2, L1. cbn. by rewrite <- app_assoc.
  - rewrite K2, K1. cbn. by rewrite <- app_assoc.
Qed.

(** ** A declaration without parameters *)

Lemma tryBind_requests (lib : Lib) (nm g sym : string) (res : Js.Val)
    (params : list Js.Val) (st : AState) :
  funcRequests (events (tryBind libFunc t lib nm g sym res params st))
  = (funcRequests (events st) ++ [sym])%list
  /\ loadedLibraries (tryBind libFunc t lib nm g sym res params st)
     = loadedLibraries st.
Proof.
  unfold tryBind. destruct (libFunc _ _ _ _) as [u|e].
  - cbn [Js.alloc]. destruct (Js.setV _ _ _ _) as [h2|]; cbn;
      rewrite !funcRequests_app; cbn; by rewrite ?app_nil_r.
  - cbn. rewrite !funcRequests_app. cbn. by rewrite ?app_nil_r.
Qed.

(** The loop stops at the first declaration that has no [parameters]: the
    functions before it have been requested, those after it are not. *)
Lemma bindFunctions_abort (lib : Lib) (nm : string)
    (pre post : list (string * NativeFunctionDef)) (g : string)
    (def : NativeFunctionDef) :
  Forall (fun fn : string * NativeFunctionDef => is_Some (parameters fn.2))
    pre ->
  parameters def = None ->
  forall st,
    exists st2,
      bindFunctions libFunc t lib nm (pre ++ (g, def) :: post) st
      = (st2, Err typeError)
      /\ funcRequests (events st2)
         = (funcRequests (events st) ++ map (fun fn => symbol fn.2) pre)%list
      /\ loadedLibraries st2 = loadedLibraries st.
Proof.
  intros Hpre Hdef. induction Hpre as [|[g0 def0] pre [ps Hps] _ IH];
    intros st.
  - exists st. cbn. rewrite Hdef. by rewrite app_nil_r.
  - cbn [app bindFunctions]. unfold bindFunction. cbn [snd] in Hps.
    rewrite Hps.
    set (st1 := tryBind _ _ _ _ _ _ _ _ _).
    destruct (IH st1) as (st2 & -> & R & L). exists st2.
    destruct (tryBind_requests lib nm g0 (symbol def0)
                (translateType (heap st) (result def0))
                (map (translateType (heap st)) ps) st) as [R1 L1].
    fold st1 in R1, L1.
    split_and!; [done| |congruence].
    rewrite R, R1. cbn. by rewrite <- app_assoc.
Qed.

(** A declared function without a [parameters] array ends the work on the
    library: the functions declared before it have been requested, no
    later one is, the last message is the warning of a library that could
    not be loaded, and the library stays among the kept ones. *)
Theorem missing_parameters_end_binding (ext : TitanExtension) (nat : Native)
    (lib : Lib) (pre post : list (string * NativeFunctionDef)) (g : string)
    (def : NativeFunctionDef) (st : AState) :
  native (titanJson ext) = Some nat ->
  native_path nat <> "" ->
  existsSync (resolveDllPath (native_path nat) (path ext)) = true ->
  koffiLoad (resolveDllPath (native_path nat) (path ext)) = Ok lib ->
  functions nat = Some (pre ++ (g, def) :: post)%list ->
  Forall (fun fn : string * NativeFunctionDef => is_Some (parameters fn.2))
    pre ->
  parameters def = None ->
  let st1 := loadNative existsSync koffiLoad libFunc t ext st in
  funcRequests (events st1)
  = (funcRequests (events st) ++ map (fun fn => symbol fn.2) pre)%list
  /\ (exists e,
        last (events st1)
        = Some (ELog ("Warning: Failed to load DLL "
                      ++ resolveDllPath (native_path nat) (path ext)
                      ++ ": " ++ e)))
  /\ loadedLibraries st1 = (loadedLibraries st ++ [lib])%list.
Proof.
  intros Hnat Hpath Hex Hload Hfns Hpre Hdef. cbn zeta.
  unfold loadNative. rewrite Hnat.
  assert (nonEmpty (native_path nat) = true) as ->
    by (apply negb_true_iff, String.eqb_neq, Hpath).
  rewrite Hex, Hload. unfold bindLibrary. rewrite Hfns.
  set (sa := mkAState _ _ _).
  destruct (bindFunctions_abort lib (name ext) pre post g def Hpre Hdef sa)
    as (st2 & -> & R & L).
  cbn [events emit loadedLibraries]. split_and!.
  - rewrite funcRequests_app, R. cbn. rewrite funcRequests_app. cbn.
    by rewrite !app_nil_r.
  - exists typeError. by rewrite last_snoc.
  - by rewrite L.
Qed.

End Trace.

Lemma missing_parameters_end_binding_witness :
  funcRequests
    (events (loadNative Ex.allFiles Ex.loadOk Ex.funcOk Ex.t0 Ex.badCore
               Ex.st0))
  = ["core_sub"].
Proof.
  destruct (missing_parameters_end_binding Ex.allFiles Ex.loadOk Ex.funcOk
              Ex.t0 Ex.badCore Ex.badNative
              "/r/node_modules/core/native/core.so"
              [("sub", Ex.subDef)] [("add", Ex.addDef)] "bad" Ex.badDef
              Ex.st0 eq_refl ltac:(discriminate) eq_refl eq_refl eq_refl)
    as [H _]; [|reflexivity|exact H].
  repeat constructor. cbn. eauto.
Defined.

(** ** Activation: the bag and the rest of the store *)

Section Bag.
Variable existsSync : string -> bool.
Variable koffiLoad : string -> Res Lib.
Variable libFunc : Lib -> string -> Js.Val -> list Js.Val -> Res unit.
Variable importModule : string -> Js.Heap -> Js.Heap * Res unit.
Variable t : Js.loc.

Lemma loadNative_heap_not_loaded (ext : TitanExtension) (st : AState) :
  loadedBy existsSync koffiLoad ext = [] ->
  heap (loadNative existsSync koffiLoad libFunc t ext st) = heap st.
Proof.
  unfold loadedBy, loadNative.
  destruct (native (titanJson ext)) as [nat|]; [|done].
  destruct (nonEmpty (native_path nat)); [|done].
  destruct (existsSync _); [|done].
  by destruct (koffiLoad _).
Qed.

Lemma loadedBy_loaded (ext : TitanExtension) (lib : Lib) (rest : list Lib) :
  loadedBy existsSync koffiLoad ext = lib :: rest ->
  exists nat,
    native (titanJson ext) = Some nat
    /\ native_path nat <> ""
    /\ existsSync (resolveDllPath (native_path nat) (path ext)) = true
    /\ koffiLoad (resolveDllPath (native_path nat) (path ext)) = Ok lib.
Proof.
  unfold loadedBy.
  destruct (native (titanJson ext)) as [nat|]; [|done].
  destruct (nonEmpty (native_path nat)) eqn:Hne; [|done].
  destruct (existsSync _) eqn:Hex; [|done].
  destruct (koffiLoad _) as [lib'|e] eqn:Hload; [|done].
  intros [= -> _]. exists nat. split_and!; try done.
  intros E. unfold nonEmpty in Hne. by rewrite E in Hne.
Qed.

(** The binding phase under a name other than [__proto__], whatever the
    manifest declares and whatever the library does. *)
Lemma bindingPhase_general (ext : TitanExtension) (st : AState) :
  wfNamespace (heap st) t ->
  name ext <> "__proto__" ->
  bagOrAbsent (heap st) t (name ext) ->
  (forall nat, native (titanJson ext) = Some nat ->
               NoDup (declaredFunctions nat).*1) ->
  exists st1 b,
    bindingPhase existsSync koffiLoad libFunc t ext st = Some st1
    /\ isBag (heap st1) t (name ext) b
    /\ (forall l' k',
          l' <> b -> l' <> t \/ k' <> name ext -> is_Some (heap st !! l') ->
          Js.own (heap st1) l' k' = Js.own (heap st) l' k').
Proof.
  intros Hwf Hnm Hbag Hnd.
  destruct (loadedBy existsSync koffiLoad ext) as [|lib rest] eqn:Hby.
  - unfold bindingPhase. set (st0 := emit _ st).
    destruct (initNamespace_bag t (name ext) st0 Hwf Hnm Hbag)
      as (h' & b & Hinit & Hb & [Fi Di] & _ & _).
    change (heap st0) with (heap st) in *.
    rewrite Hinit. cbn [option_map].
    eexists _, b. split; [reflexivity|].
    rewrite loadNative_heap_not_loaded by done. cbn [heap withHeap].
    split; [done|]. intros l' k' _ Hne Hl'. apply Fi; [|done].
    destruct Hne; auto.
  - apply loadedBy_loaded in Hby as (nat & Hnat & Hpath & Hex & Hload).
    destruct (bindingPhase_loaded existsSync koffiLoad libFunc importModule t
                ext nat lib st)
      as (st1 & b & H1 & H2 & _ & H7 & _); auto.
    by exists st1, b.
Qed.

(** The binding phase writes to the bag of its extension and to the entry
    of [t] that holds it; every other entry of [t], among them [log] and
    [native], and every other object of the store keep their own
    properties. *)
Theorem binding_phase_frame (ext : TitanExtension) (st : AState) :
  wfNamespace (heap st) t ->
  name ext <> "__proto__" ->
  bagOrAbsent (heap st) t (name ext) ->
  (forall nat, native (titanJson ext) = Some nat ->
               NoDup (declaredFunctions nat).*1) ->
  exists st1 b,
    bindingPhase existsSync koffiLoad libFunc t ext st = Some st1
    /\ Js.own (heap st1) t (name ext) = Some (Js.VRef b)
    /\ (forall n, n <> name ext ->
                  Js.own (heap st1) t n = Js.own (heap st) t n)
    /\ (forall l k, l <> b -> l <> t -> is_Some (heap st !! l) ->
                    Js.own (heap st1) l k = Js.own (heap st) l k).
Proof.
  intros Hwf Hnm Hbag Hnd.
  destruct (bindingPhase_general ext st Hwf Hnm Hbag Hnd)
    as (st1 & b & H1 & (Hown & Hbt & Hb) & Hframe).
  exists st1, b. split_and!; [done|done| |].
  - intros n Hn. apply Hframe; [done|by right|apply Hwf].
  - intros l k Hl Hlt Hin. apply Hframe; [done|by left|done].
Qed.

(** After the binding phase [hasExtension] answers [true] for the
    extension. *)
Theorem activated_extension_is_reported (ext : TitanExtension) (st : AState) :
  wfNamespace (heap st) t ->
  name ext <> "__proto__" ->
  bagOrAbsent (heap st) t (name ext) ->
  (forall nat, native (titanJson ext) = Some nat ->
               NoDup (declaredFunctions nat).*1) ->
  exists st1,
    bindingPhase existsSync koffiLoad libFunc t ext st = Some st1
    /\ hasExtension (Some t) (heap st1) (name ext) = true
    /\ (existsSync (mainPath ext) = false ->
        loadExtension existsSync koffiLoad libFunc importModule t ext st
        = Some st1).
Proof.
  intros Hwf Hnm Hbag Hnd.
  destruct (bindingPhase_general ext st Hwf Hnm Hbag Hnd)
    as (st1 & b & H1 & (Hown & _) & _).
  exists st1. split_and!; [done| |].
  - unfold hasExtension. rewrite (get_own _ _ _ _ Hown).
    by rewrite bool_decide_eq_false_2.
  - intros Hm. unfold loadExtension. rewrite H1. cbn.
    unfold loadMain. by rewrite Hm.
Qed.

End Bag.

Lemma coreNative_functions_NoDup (nat : Native) :
  native (titanJson Ex.nativeCore) = Some nat ->
  NoDup (declaredFunctions nat).*1.
Proof. intros [= <-]. apply coreNative_NoDup. Qed.

Lemma binding_phase_frame_witness :
  exists st1,
    bindingPhase Ex.allFiles Ex.loadOk Ex.funcOk Ex.t0 Ex.nativeCore Ex.st0
    = Some st1
    /\ Js.own (heap st1) Ex.t0 "log" = Js.own (heap Ex.st0) Ex.t0 "log"
    /\ Js.own (heap st1) Ex.t0 "native" = Js.own (heap Ex.st0) Ex.t0 "native".
Proof.
  destruct (binding_phase_frame Ex.allFiles Ex.loadOk Ex.funcOk
              Ex.importNothing Ex.t0 Ex.nativeCore Ex.st0
              st0_wf ltac:(discriminate) st0_no_core
              coreNative_functions_NoDup) as (st1 & b & H1 & _ & H3 & _).
  exists st1. split_and!; [exact H1| |]; apply H3; discriminate.
Defined.

Lemma activated_extension_is_reported_witness :
  exists st1,
    bindingPhase Ex.noFiles Ex.loadOk Ex.funcOk Ex.t0 Ex.nativeCore Ex.st0
    = Some st1
    /\ hasExtension (Some Ex.t0) (heap st1) "core" = true.
Proof.
  destruct (activated_extension_is_reported Ex.noFiles Ex.loadOk Ex.funcOk
              Ex.importNothing Ex.t0 Ex.nativeCore Ex.st0
              st0_wf ltac:(discriminate) st0_no_core
              coreNative_functions_NoDup) as (st1 & H1 & H2 & _).
  by exists st1.
Defined.

(** ** The namespace and [hasExtension] *)

Lemma newNamespace_spec (h : Js.Heap) :
  exists logFn nativeBag,
    (newNamespace h).2 !! (newNamespace h).1
    = Some (Js.mkObj (list_to_map [("log", Js.VRef logFn);
                                   ("native", Js.VRef nativeBag)])
              (Some Js.objProto))
    /\ (forall l, is_Some (h !! l) -> (newNamespace h).2 !! l = h !! l).
Proof.
  unfold newNamespace.
  destruct (Js.alloc h []) as [logFn h1] eqn:E1.
  destruct (Js.alloc h1 []) as [nativeBag h2] eqn:E2.
  exists logFn, nativeBag. split.
  - cbn. by rewrite lookup_insert_eq.
  - intros l Hl.
    assert (h1 = (Js.alloc h []).2) as -> by (by rewrite E1).
    assert (h2 = (Js.alloc (Js.alloc h []).2 []).2) as -> by (by rewrite E2).
    assert (H1 : is_Some ((Js.alloc h []).2 !! l))
      by (by rewrite alloc_lookup_ne).
    assert (H2 : is_Some ((Js.alloc (Js.alloc h []).2 []).2 !! l))
      by (by rewrite alloc_lookup_ne).
    rewrite alloc_lookup_ne by done. rewrite alloc_lookup_ne by done.
    by rewrite alloc_lookup_ne.
Qed.

(** [hasExtension] looks a name up on the namespace object, so on a
    namespace without any extension it already answers [true] for the two
    fixed entries and for every name [Object.prototype] defines. *)
Theorem hasExtension_without_extensions (h : Js.Heap) (k : string) :
  k = "log" \/ k = "native"
  \/ (exists v, Js.own h Js.objProto k = Some v /\ v <> Js.VUndef) ->
  hasExtension (Some (newNamespace h).1) (newNamespace h).2 k = true.
Proof.
  intros Hk. destruct (newNamespace_spec h) as (logFn & nativeBag & Ht & Hold).
  unfold hasExtension. apply negb_true_iff, bool_decide_eq_false_2.
  unfold Js.get. rewrite chainFuel_S. cbn [Js.lookupChain]. rewrite Ht.
  cbn [Js.props Js.proto list_to_map foldr].
  destruct (decide (k = "log")) as [->|Hlog].
  { by rewrite lookup_insert_eq. }
  rewrite lookup_insert_ne by done.
  destruct (decide (k = "native")) as [->|Hnat].
  { by rewrite lookup_insert_eq. }
  rewrite lookup_insert_ne, lookup_empty by done.
  destruct Hk as [?|[?|(v & Hv & Hne)]]; [done|done|].
  unfold Js.own in Hv.
  destruct (h !! Js.objProto) as [op|] eqn:Hop; [|done].
  assert (size (newNamespace h).2 <> 0) as Hsize.
  { apply map_size_ne_0_lookup. eauto. }
  destruct (size (newNamespace h).2) as [|n]; [done|].
  cbn [Js.lookupChain]. rewrite Hold by (by rewrite Hop).
  by rewrite Hop, Hv.
Qed.

Lemma hasExtension_without_extensions_witness :
  hasExtension (Some Ex.t0) (heap Ex.st0) "toString" = true.
Proof.
  apply (hasExtension_without_extensions moduleHeap "toString").
  right. right. eexists. split; [vm_compute; reflexivity|discriminate].
Defined.

(** ** [bootstrap] *)

Lemma mute_refl (st : DState) : mute st st.
Proof. exists []. by rewrite app_nil_r. Qed.

Lemma mute_trans (a b c : DState) : mute a b -> mute b c -> mute a c.
Proof.
  intros (x & Hx & Lx) (y & Hy & Ly). exists (x ++ y)%list.
  split; [by rewrite Hy, Hx, app_assoc|].
  by rewrite map_app, loadings_app, Lx, Ly.
Qed.

Lemma checkTitanJson_mute (p : string) (cs : list (string * Node))
    (st : DState) :
  mute st (checkTitanJson p cs st).
Proof.
  unfold checkTitanJson.
  destruct (existsIn cs "titan.json"); [|apply mute_refl].
  destruct (readManifest cs "titan.json") as [| | |tj];
    try apply mute_refl; try (by eexists [_]).
  destruct (nonEmpty (tj_name tj) && negb (has (found st) (tj_name tj)));
    [by eexists [_]|apply mute_refl].
Qed.

Lemma discoverState_mute (dir : string) (root : Node) :
  loadings (map ELog (logs (discoverState dir root))) = [].
Proof.
  assert (H0 : mute (mkDState [] []) (checkLocal dir (childrenOf root)
                                        (mkDState [] []))).
  { unfold checkLocal.
    destruct (existsIn _ "titan.json"); [|apply mute_refl].
    destruct (readManifest _ "titan.json") as [| | |tj];
      try apply mute_refl; try (by eexists [_]).
    destruct (nonEmpty (tj_name tj)); [by eexists [_]|apply mute_refl]. }
  assert (H1 : mute (mkDState [] []) (discoverState dir root)).
  { eapply mute_trans; [exact H0|]. unfold discoverState.
    destruct (child (childrenOf root) "node_modules") as [[| |]|];
      try apply mute_refl;
      (apply scanNodeModules_preserves;
         [apply mute_refl|apply mute_trans|apply checkTitanJson_mute]). }
  destruct H1 as (msgs & -> & Hm). done.
Qed.

Section Boot.
Variable readPackage : string -> option PackageJson.
Variable existsSync : string -> bool.
Variable koffiLoad : string -> Res Lib.
Variable libFunc : Lib -> string -> Js.Val -> list Js.Val -> Res unit.
Variable importModule : string -> Js.Heap -> Js.Heap * Res unit.

Lemma bootstrapIn_trace (dir : string) (root : Node)
    (h : Js.Heap) (libs : list Lib) (b : Booted) :
  bootstrapIn readPackage existsSync koffiLoad libFunc importModule
    dir root h libs = Some b ->
  global_t b = global_Titan b
  /\ exists l,
       sortByDependencies readPackage (discoverExtensions dir root) = Some l
       /\ l ≡ₚ discoverExtensions dir root
       /\ loadings (events (final b)) = map loadingMessage l.
Proof.
  unfold bootstrapIn. destruct (newNamespace h) as [t h1].
  fold (discoverExtensions dir root).
  pose proof (discoverState_mute dir root) as Hmute.
  destruct (Nat.eqb (length (discoverExtensions dir root)) 0) eqn:Hlen.
  - intros [= <-]. split; [done|].
    apply Nat.eqb_eq, nil_length_inv in Hlen. rewrite Hlen.
    exists []. split_and!; [done|done|].
    cbn [final events emit]. by rewrite loadings_app, Hmute.
  - pose proof (discoverExtensions_discovered dir root) as Hd.
    destruct (sortWith_spec readPackage (discoverExtensions dir root)
                (fun _ => True) (sortFuel (discoverExtensions dir root)))
      as (st & Hs & HI & _ & HN); try done.
    { apply sortFuel_enough, Hd. }
    unfold sortByDependencies. rewrite Hs.
    destruct (loadAll _ _ _ _ _ (sorted st) _) as [st2|] eqn:Hall; [|done].
    intros [= <-]. split; [done|].
    exists (sorted st). split_and!; [done| |].
    + apply sorted_Permutation; [apply Hd|done|done].
    + apply loadAll_trace in Hall as (_ & Hl & _).
      cbn [final events emit]. rewrite loadings_app, Hl.
      cbn [events emit]. rewrite loadings_app, Hmute. cbn.
      by rewrite app_nil_r.
Qed.

(** A [bootstrap] that returns keeps every library that was kept before
    and adds, in load order, the ones its extensions loaded. *)
Theorem bootstrap_keeps_libraries (dir : string) (root : Node)
    (h : Js.Heap) (libs : list Lib) (b : Booted) :
  bootstrapIn readPackage existsSync koffiLoad libFunc importModule
    dir root h libs = Some b ->
  libs `prefix_of` loadedLibraries (final b)
  /\ exists l,
       sortByDependencies readPackage (discoverExtensions dir root) = Some l
       /\ loadedLibraries (final b)
          = (libs ++ concat (map (loadedBy existsSync koffiLoad) l))%list.
Proof.
  unfold bootstrapIn. destruct (newNamespace h) as [t h1].
  fold (discoverExtensions dir root).
  destruct (Nat.eqb (length (discoverExtensions dir root)) 0) eqn:Hlen.
  - intros [= <-]. split; [done|].
    apply Nat.eqb_eq, nil_length_inv in Hlen. rewrite Hlen.
    exists []. split; [done|]. cbn. by rewrite app_nil_r.
  - destruct (sortByDependencies readPackage (discoverExtensions dir root))
      as [l|]; [|done].
    destruct (loadAll _ _ _ _ _ l _) as [st2|] eqn:Hall; [|done].
    intros [= <-]. apply loadAll_trace in Hall as (_ & _ & Hk).
    cbn [final loadedLibraries emit] in *. rewrite Hk. cbn.
    split; [by apply prefix_app_r|]. by exists l.
Qed.

(** With nothing discovered, [bootstrap] returns after one message: the
    namespace holds its two fixed entries and nothing else, no library is
    loaded and no module imported. *)
Theorem bootstrap_without_extensions (dir : string) (root : Node)
    (h : Js.Heap) (libs : list Lib) :
  discoverExtensions dir root = [] ->
  exists b,
    bootstrapIn readPackage existsSync koffiLoad libFunc importModule
      dir root h libs = Some b
    /\ global_t b = (newNamespace h).1
    /\ heap (final b) = (newNamespace h).2
    /\ loadedLibraries (final b) = libs
    /\ events (final b)
       = (map ELog (discoverLog dir root)
          ++ [ELog "No TitanPL extensions found"])%list
    /\ (forall k, k <> "log" -> k <> "native" ->
                  Js.own (heap (final b)) (global_t b) k = None).
Proof.
  intros Hnone. unfold bootstrapIn.
  destruct (newNamespace_spec h) as (logFn & nativeBag & Ht & _).
  destruct (newNamespace h) as [t h1].
  fold (discoverExtensions dir root). rewrite Hnone. cbn [length Nat.eqb].
  eexists. split; [reflexivity|]. cbn [global_t final heap emit events
                                       loadedLibraries fst snd].
  split_and!; try done.
  intros k Hlog Hnat. unfold Js.own. cbn [fst snd] in Ht. rewrite Ht.
  cbn [Js.props list_to_map foldr].
  by rewrite !lookup_insert_ne, lookup_empty.
Qed.

(** A [bootstrap] that returns has bound [t] and [Titan] to the same
    object and has started exactly the extensions [getLoadedExtensions]
    lists for the same directory, each once, in the order the sort gives. *)
Theorem bootstrap_starts_every_extension (cwd : string) (fs : string -> Node)
    (options : MicroGravityOptions) (h : Js.Heap) (libs : list Lib)
    (b : Booted) :
  bootstrap readPackage existsSync koffiLoad libFunc importModule
    cwd fs options h libs = Some b ->
  global_t b = global_Titan b
  /\ exists l,
       sortByDependencies readPackage
         (getLoadedExtensions cwd fs (rootDir options)) = Some l
       /\ l ≡ₚ getLoadedExtensions cwd fs (rootDir options)
       /\ loadings (events (final b)) = map loadingMessage l.
Proof.
  unfold bootstrap, getLoadedExtensions. intros Hb.
  destruct (rootDir options) as [dir|]; cbn [default] in *;
    by apply bootstrapIn_trace in Hb.
Qed.

End Boot.

Lemma bootstrap_without_extensions_witness :
  exists b,
    bootstrapIn (fun _ => None) Ex.noFiles Ex.loadOk Ex.funcOk Ex.importNothing
      "/r" Ex.hiddenRoot moduleHeap [] = Some b
    /\ events (final b) = [ELog "No TitanPL extensions found"].
Proof.
  destruct (bootstrap_without_extensions (fun _ => None) Ex.noFiles Ex.loadOk
              Ex.funcOk Ex.importNothing "/r" Ex.hiddenRoot moduleHeap []
              eq_refl) as (b & H1 & _ & _ & _ & H5 & _).
  exists b. split; [exact H1|exact H5].
Defined.

Lemma bootstrap_starts_every_extension_witness :
  exists l,
    sortByDependencies Ex.appPackages
      (getLoadedExtensions "/r" (fun _ => Ex.clashRoot) None) = Some l
    /\ l ≡ₚ getLoadedExtensions "/r" (fun _ => Ex.clashRoot) None.
Proof.
  destruct (bootstrap Ex.appPackages Ex.noFiles Ex.loadOk Ex.funcOk
              Ex.importNothing "/r" (fun _ => Ex.clashRoot)
              (mkOptions None None) moduleHeap []) as [b|] eqn:Hb.
  - destruct (bootstrap_starts_every_extension _ _ _ _ _ _ _ _ _ _ _ Hb)
      as (_ & l & H1 & H2 & _).
    exists l. split; [exact H1|exact H2].
  - vm_compute in Hb. discriminate.
Defined.

Lemma bootstrap_keeps_libraries_witness :
  exists b,
    bootstrapIn Ex.appPackages Ex.noFiles Ex.loadOk Ex.funcOk
      Ex.importNothing "/r" Ex.clashRoot moduleHeap ["kept.so"] = Some b
    /\ ["kept.so"] `prefix_of` loadedLibraries (final b).
Proof.
  destruct (bootstrapIn Ex.appPackages Ex.noFiles Ex.loadOk Ex.funcOk
              Ex.importNothing "/r" Ex.clashRoot moduleHeap ["kept.so"])
    as [b|] eqn:Hb.
  - exists b. split; [reflexivity|].
    exact (proj1 (bootstrap_keeps_libraries _ _ _ _ _ _ _ _ _ b Hb)).
  - vm_compute in Hb. discriminate.
Defined.

(** The end-to-end run of a project [app] that depends on [core]: [core] is
    started first, then the local [app]. *)
Example bootstrap_core_then_app :
  option_map (fun b => loadings (events (final b)))
    (bootstrapIn Ex.appPackages Ex.noFiles Ex.loadOk Ex.funcOk
       Ex.importNothing "/r" Ex.clashRoot moduleHeap [])
  = Some ["Loading: core "; "Loading: app (local)"].
Proof. vm_compute. reflexivity. Qed.

Lemma translateType_passthrough_witness :
  translateType moduleHeap "i32" = Js.VStr "i32".
Proof.
  apply (translateType_passthrough "i32"); [not_in_list|not_in_list|].
  discriminate.
Defined.
